(** * Señales y Sistemas: Fourier-property verification toolkit

    Shallow embedding of [ActividadFormativa2SyS.py].  The NumPy
    primitives the program calls ([np.fft.fft], [np.fft.fftfreq],
    [np.argsort], [np.roll], [np.interp], [np.arange], [np.max]) are
    written out after their documented behaviour.

    Two levels are kept apart.  Sums, products, sines and the transform
    are continuous in their inputs, and are modelled on real numbers:
    arrays of floats are lists of reals, complex arrays lists of pairs of
    reals, every operation the exact one.  What the program decides
    discretely from floats (the number of samples of a shift, the points
    of the time grid, the samples inside the pulse) is modelled on IEEE
    binary64 numbers in [Module Doble], because there one rounding changes
    the result by a whole sample.

    The real-valued functions model the runs that raise nothing: in
    [calcular_transformada_fourier] the signal is non-empty and
    [dt <> 0] ([np.fft.fft] raises on an empty array, [np.fft.fftfreq]
    divides by [n * d]), and the statements below carry these as
    hypotheses. *)

From Stdlib Require Import Reals Lra Lia List ZArith Permutation Sorted.
From Stdlib Require String.
From Stdlib Require PrimFloat SpecFloat FloatOps FloatAxioms.
Import ListNotations.
Open Scope R_scope.

(** ** Complex numbers as the program uses them *)

Record C : Set := mkC { Re : R; Im : R }.

Definition C0 : C := mkC 0 0.
Definition Cadd (z w : C) : C := mkC (Re z + Re w) (Im z + Im w).
Definition Csub (z w : C) : C := mkC (Re z - Re w) (Im z - Im w).
Definition Cmul (z w : C) : C :=
  mkC (Re z * Re w - Im z * Im w) (Re z * Im w + Im z * Re w).
(** complex value times a float, [z * r] *)
Definition Cscale (r : R) (z : C) : C := mkC (r * Re z) (r * Im z).
(** [np.abs] on a complex value *)
Definition Cmod (z : C) : R := sqrt (Re z * Re z + Im z * Im z).
(** [np.exp] on a complex value *)
Definition Cexp (z : C) : C :=
  mkC (exp (Re z) * cos (Im z)) (exp (Re z) * sin (Im z)).
Definition Csum (l : list C) : C := fold_right Cadd C0 l.
Definition Rsum (l : list R) : R := fold_right Rplus 0 l.

(** Comparisons of floats, as booleans. *)
Definition Rleb (x y : R) : bool := if Rle_dec x y then true else false.
Definition Rgeb (x y : R) : bool := Rleb y x.

(** Python's [int(x)] on a float: truncation toward zero.  Here [x] is a
    real; [Doble.int] is the same on a double, and [Doble.muestras] applies
    it to the quotient the program computes. *)
Definition int_of_float (x : R) : Z :=
  if Rle_dec 0 x then Int_part x else (- Int_part (- x))%Z.

(** Element-wise array arithmetic. *)
Definition vscale (a : R) (x : list R) : list R := map (Rmult a) x.
Definition vadd (x y : list R) : list R :=
  map (fun p => fst p + snd p) (combine x y).
Definition vsub (x y : list R) : list R :=
  map (fun p => fst p - snd p) (combine x y).
Definition Cvscale (a : R) (x : list C) : list C := map (Cscale a) x.
Definition Cvadd (x y : list C) : list C :=
  map (fun p => Cadd (fst p) (snd p)) (combine x y).
Definition Cvsub (x y : list C) : list C :=
  map (fun p => Csub (fst p) (snd p)) (combine x y).
Definition Cvmul (x y : list C) : list C :=
  map (fun p => Cmul (fst p) (snd p)) (combine x y).

(** ** NumPy primitives *)

Module Np.

(** [np.zeros_like(t)] *)
Definition zeros_like (t : list R) : list R := map (fun _ => 0) t.

(** [m1 & m2] on boolean arrays of one length *)
Definition mask_and (m1 m2 : list bool) : list bool :=
  map (fun p => andb (fst p) (snd p)) (combine m1 m2).

(** [a[m] = v] with a boolean mask [m] and a scalar [v] *)
Definition mask_assign (a : list R) (m : list bool) (v : R) : list R :=
  map (fun p => if (snd p : bool) then v else fst p) (combine a m).

(** [a[idx]] with an integer index array; the program only indexes with
    the result of [argsort], whose entries are in range. *)
Definition take {A} (d : A) (a : list A) (idx : list nat) : list A :=
  map (fun i => nth i a d) idx.

(** [np.fft.fft(a)] for a real input: [A_k = sum_n a_n exp(-2 pi i k n / N)]. *)
Definition fft (a : list R) : list C :=
  let N := length a in
  map (fun k =>
         Csum (map (fun n =>
                      Cscale (nth n a 0)
                        (Cexp (mkC 0 (- (2 * PI * INR k * INR n / INR N)))))
                   (seq 0 N)))
      (seq 0 N).

(** [np.fft.fftfreq(n, d)]: the integers [0 .. (n-1)//2] followed by
    [-(n//2) .. -1], all multiplied by [1/(n*d)]. *)
Definition fftfreq (n : nat) (d : R) : list R :=
  let val := 1 / (INR n * d) in
  let N := Z.to_nat ((Z.of_nat n - 1) / 2 + 1) in
  let p1 := map Z.of_nat (seq 0 N) in
  let p2 := map (fun i => (Z.of_nat i - Z.of_nat n / 2)%Z)
                (seq 0 (Z.to_nat (Z.of_nat n / 2))) in
  map (fun r => IZR r * val) (p1 ++ p2).

(** [np.argsort(a)]: the indices that sort [a] ascending.  NumPy does not
    fix the order of equal keys; here they keep their input order. *)
Fixpoint insert_idx (key : nat -> R) (i : nat) (l : list nat) : list nat :=
  match l with
  | [] => [i]
  | j :: l' =>
      if Rle_dec (key i) (key j) then i :: l else j :: insert_idx key i l'
  end.

Definition argsort (a : list R) : list nat :=
  fold_right (insert_idx (fun i => nth i a 0)) [] (seq 0 (length a)).

(** [np.roll(a, shift)] on a one-dimensional array: with
    [offset = shift mod n], [result[offset:] = a[:-offset]] and
    [result[:offset] = a[-offset:]]. *)
Definition roll {A} (a : list A) (shift : Z) : list A :=
  let n := length a in
  let offset :=
    Z.to_nat (shift mod Z.of_nat (if Nat.eqb n 0 then 1 else n)) in
  skipn (n - offset) a ++ firstn (n - offset) a.

(** The search of [np.interp]: for a key inside [xp[0], xp[-1]], the index
    before the first sample point above the key. *)
Fixpoint locate (x : R) (xp : list R) : nat :=
  match xp with
  | _ :: ((b :: _) as tl) => if Rlt_dec x b then 0%nat else S (locate x tl)
  | _ => 0%nat
  end.

(** One value of [np.interp(x, xp, fp, left, right)]. *)
Definition interp1 (xp fp : list R) (left right : R) (x : R) : R :=
  let n := length xp in
  if Nat.eqb n 1 then
    if Rlt_dec x (hd 0 xp) then left
    else if Rlt_dec (hd 0 xp) x then right else hd 0 fp
  else if Rlt_dec (last xp 0) x then right
  else if Rlt_dec x (hd 0 xp) then left
  else
    let j := locate x xp in
    if Nat.eqb j (n - 1) then nth j fp 0
    else if Req_dec_T (nth j xp 0) x then nth j fp 0
    else
      let slope :=
        (nth (S j) fp 0 - nth j fp 0) / (nth (S j) xp 0 - nth j xp 0) in
      slope * (x - nth j xp 0) + nth j fp 0.

(** [np.interp]; it raises on an empty [xp] and when [xp] and [fp] differ
    in length. *)
Definition interp (x xp fp : list R) (left right : R) : option (list R) :=
  if Nat.eqb (length xp) 0 then None
  else if Nat.eqb (length xp) (length fp)
       then Some (map (interp1 xp fp left right) x)
       else None.

(** [np.max(a)]; it raises on an empty array. *)
Definition amax (a : list R) : option R :=
  match a with
  | [] => None
  | x :: a' => Some (fold_left Rmax a' x)
  end.

End Np.

(** ** The program's decisions on IEEE doubles

    Where the program decides something discrete from floating-point
    values (a comparison, a truncation, the length and the points of a
    grid), one rounding can move the result by a whole sample.  This
    module writes those lines on binary64 numbers, Rocq's primitive floats,
    operation by operation as Python and NumPy perform them. *)

Module Doble.
Import PrimFloat.

(** The real number a finite double stands for (0 for infinities and
    NaN, which no statement below meets). *)
Definition valor (x : float) : R :=
  match FloatOps.Prim2SF x with
  | SpecFloat.S754_finite s m e =>
      ((if s then -1 else 1) * IZR (Z.pos m) * powerRZ 2 e)%R
  | _ => 0%R
  end.

(** Python's [int(x)]: truncation toward zero; [None] when it raises
    (infinity, NaN). *)
Definition int (x : float) : option Z :=
  match FloatOps.Prim2SF x with
  | SpecFloat.S754_zero _ => Some 0%Z
  | SpecFloat.S754_finite s m e =>
      let mag := if (0 <=? e)%Z then (Z.pos m * 2 ^ e)%Z
                 else (Z.pos m / 2 ^ (- e))%Z in
      Some (if s then (- mag)%Z else mag)
  | _ => None
  end.

(** The ceiling [np.arange] takes of its length; [None] when it raises. *)
Definition ceil (x : float) : option Z :=
  match FloatOps.Prim2SF x with
  | SpecFloat.S754_zero _ => Some 0%Z
  | SpecFloat.S754_finite s m e =>
      if (0 <=? e)%Z then
        Some (if s then (- (Z.pos m * 2 ^ e))%Z else (Z.pos m * 2 ^ e)%Z)
      else
        let q := (Z.pos m / 2 ^ (- e))%Z in
        let r := (Z.pos m mod 2 ^ (- e))%Z in
        Some (if s then (- q)%Z else if (r =? 0)%Z then q else (q + 1)%Z)
  | _ => None
  end.

(** An array index as a double. *)
Definition of_nat (i : nat) : float :=
  of_uint63 (Uint63Axioms.of_Z (Z.of_nat i)).

(** [np.arange(start, stop, step)] with a float step: the length is
    [ceil((stop - start)/step)]; the first two points are [start] and
    [start + step], the others [start + i*delta] with
    [delta = (start + step) - start]. *)
Definition arange (start stop step : float) : option (list float) :=
  match ceil ((stop - start) / step)%float with
  | None => None
  | Some len =>
      Some (match Z.to_nat len with
            | O => []
            | S O => [start]
            | S (S k) =>
                let next := (start + step)%float in
                let delta := (next - start)%float in
                start :: next ::
                map (fun i => (start + of_nat i * delta)%float) (seq 2 k)
            end)
  end.

(** [a[m] = v] on an array of doubles. *)
Definition mask_assign (a : list float) (m : list bool) (v : float)
  : list float :=
  map (fun p => if (snd p : bool) then v else fst p) (combine a m).

(** Line 27: the two bounds [centro - ancho/2] and [centro + ancho/2], as
    the doubles the program computes. *)
Definition borde_inferior (ancho centro : float) : float :=
  (centro - ancho / 2)%float.
Definition borde_superior (ancho centro : float) : float :=
  (centro + ancho / 2)%float.

Definition generar_pulso_rectangular
  (t : list float) (ancho amplitud centro : float) : list float :=
  let señal := map (fun _ => 0%float) t in
  mask_assign señal
    (Np.mask_and
       (map (fun τ => (borde_inferior ancho centro <=? τ)%float) t)
       (map (fun τ => (τ <=? borde_superior ancho centro)%float) t))
    amplitud.

(** Line 190: the quotient [desplazamiento/dt] and the number of samples
    [int(desplazamiento/dt)]; [None] when the line raises.  At [dt = 0]
    the IEEE quotient is infinite or not a number: Python raises at the
    division, NumPy in [int]. *)
Definition cociente (desplazamiento dt : float) : float :=
  (desplazamiento / dt)%float.
Definition muestras (desplazamiento dt : float) : option Z :=
  int (cociente desplazamiento dt).

(** Line 190: [np.roll(señal, int(desplazamiento/dt))]. *)
Definition señal_desplazada {A} (señal : list A) (desplazamiento dt : float)
  : option (list A) :=
  match muestras desplazamiento dt with
  | None => None
  | Some m => Some (Np.roll señal m)
  end.

(** [main]: [dt = 0.01] (the nearest double, written in hexadecimal),
    [t = np.arange(-5, 5, dt)] and the pulse of width 2, amplitude 1,
    centre 0. *)
Definition main_dt : float := 0x1.47ae147ae147bp-7%float.
Definition main_t : option (list float) := arange (-5) 5 main_dt.
Definition main_pulso : option (list float) :=
  match main_t with
  | None => None
  | Some t => Some (generar_pulso_rectangular t 2 1 0)
  end.

(** A shift of 29 steps of [main]'s grid, [29 * 0.01]; it is the double
    that the literal [0.29] denotes. *)
Definition t0_29_pasos : float := (29 * main_dt)%float.

(** The doubles 2.0, 3.0 and 0.5, and [-1e-13], a width of small size. *)
Definition dos : float := 2%float.
Definition tres : float := 3%float.
Definition un_medio : float := 0x1p-1%float.
Definition mil : float := 1000%float.
Definition ancho_diminuto : float := (- 0x1.c25c268497682p-44)%float.

(** Sum of an array of doubles, left to right. *)
Definition suma (a : list float) : float :=
  fold_left (fun acc x => (acc + x)%float) a 0%float.

End Doble.

(** ** 1. Signal generators *)

Definition generar_pulso_rectangular
  (t : list R) (ancho amplitud centro : R) : list R :=
  let señal := Np.zeros_like t in
  Np.mask_assign señal
    (Np.mask_and (map (fun τ => Rgeb τ (centro - ancho / 2)) t)
                 (map (fun τ => Rleb τ (centro + ancho / 2)) t))
    amplitud.

Definition generar_escalon (t : list R) (amplitud inicio : R) : list R :=
  let señal := Np.zeros_like t in
  Np.mask_assign señal (map (fun τ => Rgeb τ inicio) t) amplitud.

Definition generar_senoidal
  (t : list R) (frecuencia amplitud fase : R) : list R :=
  map (fun τ => amplitud * sin (2 * PI * frecuencia * τ + fase)) t.

(** ** 2. Discrete transform *)

(** The two arrays before the re-ordering. *)
Definition espectro_sin_ordenar (señal_t : list R) (dt : R) : list C :=
  map (Cscale dt) (Np.fft señal_t).

Definition calcular_transformada_fourier
  (señal_t : list R) (dt : R) : list R * list C :=
  let N := length señal_t in
  let espectro := espectro_sin_ordenar señal_t dt in
  let frecuencias := Np.fftfreq N dt in
  let idx := Np.argsort frecuencias in
  (Np.take 0 frecuencias idx, Np.take C0 espectro idx).

(** ** 4. Property verifiers

    Each verifier prints its error and plots; the model returns the local
    arrays the claims speak about together with the printed error. *)

Record Linealidad : Type := mkLinealidad {
  lin_señal_combinada : list R;
  lin_espectro_combinada : list C;
  lin_espectro_lineal : list C;
  lin_error : option R
}.

(** Body of [verificar_linealidad], with its two local coefficients as
    parameters. *)
Definition linealidad_con (a b : R) (señal1 señal2 : list R) (dt : R)
  : Linealidad :=
  let señal_combinada := vadd (vscale a señal1) (vscale b señal2) in
  let espectro1 := snd (calcular_transformada_fourier señal1 dt) in
  let espectro2 := snd (calcular_transformada_fourier señal2 dt) in
  let espectro_combinada :=
    snd (calcular_transformada_fourier señal_combinada dt) in
  let espectro_lineal := Cvadd (Cvscale a espectro1) (Cvscale b espectro2) in
  let error := Np.amax (map Cmod (Cvsub espectro_combinada espectro_lineal)) in
  mkLinealidad señal_combinada espectro_combinada espectro_lineal error.

Definition verificar_linealidad (t señal1 señal2 : list R) (dt : R)
  : Linealidad :=
  linealidad_con 2 3 señal1 señal2 dt.

Record Desplazamiento : Type := mkDesplazamiento {
  des_señal_desplazada : list R;
  des_espectro_desplazado : list C;
  des_espectro_teorico : list C;
  des_error : option R
}.

(** The time-shift verifier with the quotient [desplazamiento/dt] taken
    exactly; it raises nothing for a non-empty signal and [dt <> 0]. *)
Definition verificar_desplazamiento_tiempo
  (t señal : list R) (dt desplazamiento : R) : Desplazamiento :=
  let señal_desplazada :=
    Np.roll señal (int_of_float (desplazamiento / dt)) in
  let '(frecuencias, espectro) := calcular_transformada_fourier señal dt in
  let espectro_desplazado :=
    snd (calcular_transformada_fourier señal_desplazada dt) in
  let factor_teorico :=
    map (fun f => Cexp (mkC 0 (- 2 * PI * f * desplazamiento))) frecuencias in
  let espectro_teorico := Cvmul factor_teorico espectro in
  let error :=
    Np.amax (map Cmod (Cvsub espectro_desplazado espectro_teorico)) in
  mkDesplazamiento señal_desplazada espectro_desplazado espectro_teorico error.

(** The verifier after its first line, for a given number of samples of
    shift; [verificar_desplazamiento_tiempo] above takes that number from
    the exact quotient, the program from the quotient of two doubles
    ([Doble.muestras]). *)
Definition verificar_desplazamiento_con
  (muestras : Z) (t señal : list R) (dt desplazamiento : R) : Desplazamiento :=
  let señal_desplazada := Np.roll señal muestras in
  let '(frecuencias, espectro) := calcular_transformada_fourier señal dt in
  let espectro_desplazado :=
    snd (calcular_transformada_fourier señal_desplazada dt) in
  let factor_teorico :=
    map (fun f => Cexp (mkC 0 (- 2 * PI * f * desplazamiento))) frecuencias in
  let espectro_teorico := Cvmul factor_teorico espectro in
  let error :=
    Np.amax (map Cmod (Cvsub espectro_desplazado espectro_teorico)) in
  mkDesplazamiento señal_desplazada espectro_desplazado espectro_teorico error.

Record Escalamiento : Type := mkEscalamiento {
  esc_señal_escalada : list R;
  esc_frecuencias : list R;
  esc_espectro : list C;
  esc_espectro_escalado : list C;
  esc_espectro_teorico : list R;
  esc_error : option R
}.

(** [None] when one of the two [np.interp] calls raises; the transform in
    between raises nothing for [dt <> 0]. *)
Definition verificar_escalamiento_frecuencia
  (t señal : list R) (dt factor : R) : option Escalamiento :=
  let t_escalado := vscale factor t in
  match Np.interp t t_escalado señal 0 0 with
  | None => None
  | Some señal_escalada =>
      let '(frecuencias, espectro) := calcular_transformada_fourier señal dt in
      let espectro_escalado :=
        snd (calcular_transformada_fourier señal_escalada dt) in
      let frecuencias_teoricas := vscale factor frecuencias in
      match Np.interp frecuencias frecuencias_teoricas
                      (map Cmod espectro) 0 0 with
      | None => None
      | Some interpolado =>
          let espectro_teorico := vscale (1 / Rabs factor) interpolado in
          let error :=
            Np.amax (map Rabs (vsub (map Cmod espectro_escalado)
                                    espectro_teorico)) in
          Some (mkEscalamiento señal_escalada frecuencias espectro
                  espectro_escalado espectro_teorico error)
      end
  end.

(** ** 5. The main simulation's step *)

Definition main_dt : R := 1 / 100.

(** ** The slide navigator of [ActividadFormativa3SyS.py]

    [NavegadorGraficos] keeps an index into a fixed list of five slide
    methods and redraws on every key event.  The state is the index; a key
    event returns the new index and what is done to the figure. *)

Module Navegador.
Import String.

(** [self.diapositivas], by the names of the bound methods. *)
Definition diapositivas : list string :=
  ["diapositiva_original"%string; "diapositiva_pasa_bajos"%string;
   "diapositiva_pasa_altos"%string; "diapositiva_pasa_bandas"%string;
   "diapositiva_comparativa"%string].

Definition tecla_derecha : string := "right"%string.
Definition tecla_izquierda : string := "left"%string.
Definition tecla_salir : string := "q"%string.

(** [lista[i]] with a Python integer: a negative index counts from the
    end, [None] is [IndexError]. *)
Definition py_index {A} (l : list A) (i : Z) : option A :=
  let n := Z.of_nat (List.length l) in
  if (0 <=? i)%Z then nth_error l (Z.to_nat i)
  else if (- n <=? i)%Z then nth_error l (Z.to_nat (n + i))
  else None.

Inductive Accion : Type :=
| Mostrar (diapositiva : option string)
| Cerrar
| Ninguna.

(** [mostrar_diapositiva]: clears the figure and calls
    [self.diapositivas[self.indice]]. *)
Definition mostrar_diapositiva (indice : Z) : Accion :=
  Mostrar (py_index diapositivas indice).

(** [__init__]: index 0, and the first slide is shown. *)
Definition indice_inicial : Z := 0.

Definition navegar (indice : Z) (key : string) : Z * Accion :=
  let n := Z.of_nat (List.length diapositivas) in
  if String.eqb key tecla_derecha then
    let indice := ((indice + 1) mod n)%Z in
    (indice, mostrar_diapositiva indice)
  else if String.eqb key tecla_izquierda then
    let indice := ((indice - 1) mod n)%Z in
    (indice, mostrar_diapositiva indice)
  else if String.eqb key tecla_salir then (indice, Cerrar)
  else (indice, Ninguna).

(** The key events of a session, handled one after the other. *)
Fixpoint pulsar (indice : Z) (keys : list string) : Z * list Accion :=
  match keys with
  | [] => (indice, [])
  | key :: keys' =>
      let '(indice', accion) := navegar indice key in
      let '(final, acciones) := pulsar indice' keys' in
      (final, accion :: acciones)
  end.

End Navegador.

(** ** Notions of the specification

    These are not part of the program: they write out the words of the
    statements proved below (the wrap-around frequency of a bin, a circular
    shift, signal energy, linear interpolation), to be compared with what
    the program computes. *)

(** The integer that [fftfreq] assigns to bin [k] of [n]: [k] in the lower
    half, [k - n] from the middle on. *)
Definition bin_entero (n k : nat) : Z :=
  if Nat.ltb (2 * k) n then Z.of_nat k else (Z.of_nat k - Z.of_nat n)%Z.

(** Order of two indices by their keys. *)
Definition key_le (key : nat -> R) (i j : nat) : Prop := key i <= key j.

(** Circular shift of [s] by [m] positions: position [i] receives sample
    [(i - m) mod N]. *)
Definition rotacion (s : list R) (m : Z) : list R :=
  let N := length s in
  map (fun i => nth (Z.to_nat ((Z.of_nat i - m) mod Z.of_nat N)) s 0)
      (seq 0 N).

(** The unit complex number [exp(-i 2 pi j / N)] for an integer [j]. *)
Definition omega (N : nat) (j : Z) : C :=
  Cexp (mkC 0 (- (2 * PI * IZR j / INR N))).

(** Energy of a sampled signal, [sum_n |s[n]|^2 * dt], and the sum of
    [|spectrum[k]|^2 * w] over all bins for a bin weight [w]. *)
Definition energia_tiempo (s : list R) (dt : R) : R :=
  Rsum (map (fun x => Rabs x ^ 2 * dt) s).

Definition energia_espectro (espectro : list C) (w : R) : R :=
  Rsum (map (fun z => Cmod z ^ 2 * w) espectro).

(** [y] is the value at [x] of the piecewise-linear interpolant through
    the points [(xp[j], fp[j])], with zero outside the span of the sample
    points: [x] is a sample point and [y] its value, or [x] lies strictly
    between two consecutive sample points and [y] is on the segment that
    joins them, or all sample points lie on one side of [x] and [y = 0]. *)
Definition interpolacion_lineal (xp fp : list R) (x y : R) : Prop :=
  (exists j, (j < length xp)%nat /\ x = nth j xp 0 /\ y = nth j fp 0) \/
  (exists j, (S j < length xp)%nat /\
     (nth j xp 0 < x < nth (S j) xp 0 \/ nth (S j) xp 0 < x < nth j xp 0) /\
     y = nth j fp 0 +
         (x - nth j xp 0) *
         ((nth (S j) fp 0 - nth j fp 0) / (nth (S j) xp 0 - nth j xp 0))) \/
  (((forall j, (j < length xp)%nat -> x < nth j xp 0) \/
    (forall j, (j < length xp)%nat -> nth j xp 0 < x)) /\ y = 0).

(** Complex conjugate. *)
Definition Cconj (z : C) : C := mkC (Re z) (- Im z).

(** ** Facts about the generators *)

Lemma Rleb_true (x y : R) : Rleb x y = true <-> x <= y.
Proof. unfold Rleb; destruct (Rle_dec x y); split; intros; try easy; lra. Qed.

Lemma Rleb_false (x y : R) : Rleb x y = false <-> y < x.
Proof. unfold Rleb; destruct (Rle_dec x y); split; intros; try easy; lra. Qed.


Lemma nth_map_lt {A B} (f : A -> B) (l : list A) (d : A) (d' : B) (i : nat) :
  (i < length l)%nat -> nth i (map f l) d' = f (nth i l d).
Proof.
  revert i. induction l as [|x l IH]; intros [|i] Hi; simpl in *;
    try lia; [reflexivity | apply IH; lia].
Qed.




(** ** The frequency axis *)

(** Linear integer arithmetic with floor division by a constant. *)
Ltac lia_div := Zify.zify; Z.to_euclidean_division_equations; lia.

Lemma map_seq_shift_ext {B} (f g : nat -> B) (a b m : nat) :
  (forall i, (i < m)%nat -> f (a + i)%nat = g (b + i)%nat) ->
  map f (seq a m) = map g (seq b m).
Proof.
  revert a b. induction m as [|m IH]; intros a b H; simpl; [reflexivity|].
  f_equal.
  - specialize (H 0%nat). rewrite !Nat.add_0_r in H. apply H. lia.
  - apply IH. intros i Hi. specialize (H (S i)).
    rewrite !Nat.add_succ_r in H. simpl. apply H. lia.
Qed.

Lemma fftfreq_bins (n : nat) (d : R) :
  (0 < n)%nat ->
  Np.fftfreq n d =
  map (fun k => IZR (bin_entero n k) * (1 / (INR n * d))) (seq 0 n).
Proof.
  intros Hn. unfold Np.fftfreq.
  set (N1 := Z.to_nat ((Z.of_nat n - 1) / 2 + 1)).
  set (N2 := Z.to_nat (Z.of_nat n / 2)).
  assert (Hsum : n = (N1 + N2)%nat) by (unfold N1, N2; lia_div).
  rewrite <- (map_map (bin_entero n) (fun r => IZR r * (1 / (INR n * d)))).
  f_equal.
  replace (seq 0 n) with (seq 0 N1 ++ seq (0 + N1) N2)
    by (now rewrite <- seq_app, <- Hsum).
  rewrite map_app. f_equal.
  - apply map_ext_in. intros k Hk. apply in_seq in Hk.
    unfold bin_entero.
    destruct (Nat.ltb_spec (2 * k) n) as [_|H]; [reflexivity|].
    unfold N1 in Hk. lia_div.
  - apply map_seq_shift_ext. intros i Hi. unfold bin_entero.
    destruct (Nat.ltb_spec (2 * (0 + N1 + i)) n) as [H|_].
    + unfold N1 in H. lia_div.
    + unfold N1, N2 in *. lia_div.
Qed.

Lemma fftfreq_length (n : nat) (d : R) :
  (0 < n)%nat -> length (Np.fftfreq n d) = n.
Proof. intros Hn. now rewrite fftfreq_bins, length_map, length_seq. Qed.

Lemma fftfreq_nth (n : nat) (d : R) (k : nat) :
  (k < n)%nat ->
  nth k (Np.fftfreq n d) 0 = IZR (bin_entero n k) * (1 / (INR n * d)).
Proof.
  intros Hk. rewrite fftfreq_bins by lia.
  rewrite (nth_map_lt _ _ 0%nat) by (rewrite length_seq; lia).
  now rewrite seq_nth by lia.
Qed.

Lemma val_pos (n : nat) (d : R) :
  (0 < n)%nat -> 0 < d -> 0 < 1 / (INR n * d).
Proof.
  intros Hn Hd. apply Rdiv_lt_0_compat; [lra|].
  apply Rmult_lt_0_compat; [|assumption].
  apply lt_0_INR. lia.
Qed.

Lemma bin_entero_inj (n i j : nat) :
  (i < n)%nat -> (j < n)%nat -> bin_entero n i = bin_entero n j -> i = j.
Proof.
  unfold bin_entero. intros Hi Hj.
  destruct (Nat.ltb_spec (2 * i) n), (Nat.ltb_spec (2 * j) n); lia.
Qed.

Lemma fftfreq_inj (n : nat) (d : R) (i j : nat) :
  0 < d -> (i < n)%nat -> (j < n)%nat ->
  nth i (Np.fftfreq n d) 0 = nth j (Np.fftfreq n d) 0 -> i = j.
Proof.
  intros Hd Hi Hj. rewrite !fftfreq_nth by assumption.
  intros H. apply (bin_entero_inj n); try assumption.
  apply eq_IZR. apply Rmult_eq_reg_r in H; [assumption|].
  apply Rgt_not_eq. apply val_pos; [lia | assumption].
Qed.

(** ** argsort: a sorting permutation of the indices *)

Section ArgSort.
Variable key : nat -> R.

Lemma insert_idx_perm (i : nat) (l : list nat) :
  Permutation (Np.insert_idx key i l) (i :: l).
Proof.
  induction l as [|j l IH]; simpl; [apply Permutation_refl|].
  destruct (Rle_dec (key i) (key j)); [apply Permutation_refl|].
  eapply perm_trans; [apply perm_skip, IH | apply perm_swap].
Qed.

Lemma insert_idx_hdrel (a i : nat) (l : list nat) :
  key_le key a i -> HdRel (key_le key) a l ->
  HdRel (key_le key) a (Np.insert_idx key i l).
Proof.
  intros Hai Hl. destruct l as [|j l]; simpl; [now constructor|].
  destruct (Rle_dec (key i) (key j)); constructor; [assumption|].
  now inversion Hl.
Qed.

Lemma insert_idx_sorted (i : nat) (l : list nat) :
  Sorted (key_le key) l -> Sorted (key_le key) (Np.insert_idx key i l).
Proof.
  induction 1 as [|j l Hs IH Hhd]; simpl; [repeat constructor|].
  destruct (Rle_dec (key i) (key j)) as [Hle|Hnle].
  - constructor; [now constructor | now constructor].
  - constructor; [assumption|].
    apply insert_idx_hdrel; [unfold key_le; lra | assumption].
Qed.

Lemma fold_insert_perm (l : list nat) :
  Permutation (fold_right (Np.insert_idx key) [] l) l.
Proof.
  induction l as [|i l IH]; simpl; [constructor|].
  eapply perm_trans; [apply insert_idx_perm | now apply perm_skip].
Qed.

Lemma fold_insert_sorted (l : list nat) :
  Sorted (key_le key) (fold_right (Np.insert_idx key) [] l).
Proof.
  induction l as [|i l IH]; simpl; [constructor|].
  now apply insert_idx_sorted.
Qed.

Lemma key_le_trans : Relations_1.Transitive (key_le key).
Proof. intros a b c; unfold key_le; lra. Qed.

(** Sorted keys without repetition are strictly ascending. *)
Lemma sorted_nodup_strict (l : list nat) :
  (forall i j, In i l -> In j l -> key i = key j -> i = j) ->
  NoDup l -> Sorted (key_le key) l -> StronglySorted Rlt (map key l).
Proof.
  intros Hinj Hnd Hs.
  apply (Sorted_StronglySorted key_le_trans) in Hs.
  induction Hs as [|i l Hs IH Hall]; simpl; constructor.
  - apply IH; [|now inversion Hnd].
    intros a b Ha Hb. apply Hinj; now right.
  - inversion Hnd as [|? ? Hni Hnd']; subst.
    rewrite Forall_forall in *. intros x Hx.
    apply in_map_iff in Hx. destruct Hx as (j & <- & Hj).
    specialize (Hall j Hj). unfold key_le in Hall.
    destruct Hall as [Hlt|Heq]; [assumption|].
    exfalso. apply Hni.
    rewrite (Hinj i j); [assumption | now left | now right | assumption].
Qed.
End ArgSort.

Lemma argsort_perm (a : list R) :
  Permutation (Np.argsort a) (seq 0 (length a)).
Proof. apply fold_insert_perm. Qed.

Lemma argsort_sorted (a : list R) :
  Sorted (key_le (fun i => nth i a 0)) (Np.argsort a).
Proof. apply fold_insert_sorted. Qed.

Lemma argsort_length (a : list R) : length (Np.argsort a) = length a.
Proof.
  rewrite (Permutation_length (argsort_perm a)). apply length_seq.
Qed.

Lemma argsort_in_range (a : list R) (i : nat) :
  In i (Np.argsort a) -> (i < length a)%nat.
Proof.
  intros Hi. apply (Permutation_in _ (argsort_perm a)) in Hi.
  apply in_seq in Hi. lia.
Qed.

Lemma argsort_nth_range (a : list R) (p : nat) :
  (p < length a)%nat -> (nth p (Np.argsort a) 0 < length a)%nat.
Proof.
  intros Hp. apply argsort_in_range. apply nth_In.
  now rewrite argsort_length.
Qed.

(** Indexing an array with all its indices in order gives it back. *)
Lemma take_seq {A} (d : A) (a : list A) :
  Np.take d a (seq 0 (length a)) = a.
Proof.
  unfold Np.take. apply (nth_ext _ _ d d).
  - now rewrite length_map, length_seq.
  - intros n Hn. rewrite length_map, length_seq in Hn.
    rewrite (nth_map_lt _ _ 0%nat) by now rewrite length_seq.
    now rewrite seq_nth.
Qed.

Lemma combine_nth_lt {A B} (da : A) (db : B) (a : list A) (b : list B)
      (i : nat) :
  (i < length a)%nat -> (i < length b)%nat ->
  nth i (combine a b) (da, db) = (nth i a da, nth i b db).
Proof.
  revert b i. induction a as [|x a IH]; intros [|y b] [|i] Ha Hb;
    simpl in *; try lia; [reflexivity | apply IH; lia].
Qed.

Lemma take_combine {A B} (da : A) (db : B) (a : list A) (b : list B)
      (idx : list nat) :
  (forall i, In i idx -> (i < length a)%nat /\ (i < length b)%nat) ->
  combine (Np.take da a idx) (Np.take db b idx) =
  Np.take (da, db) (combine a b) idx.
Proof.
  unfold Np.take. induction idx as [|i idx IH]; intros H; simpl;
    [reflexivity|].
  rewrite IH by (intros j Hj; apply H; now right).
  f_equal. symmetry. apply combine_nth_lt; apply H; now left.
Qed.

(** ** The transform: length, order and pairing *)

Lemma fft_length (a : list R) : length (Np.fft a) = length a.
Proof. unfold Np.fft. now rewrite length_map, length_seq. Qed.

Lemma espectro_sin_ordenar_length (s : list R) (dt : R) :
  length (espectro_sin_ordenar s dt) = length s.
Proof. unfold espectro_sin_ordenar. now rewrite length_map, fft_length. Qed.

Lemma length_pos_of_nonempty {A} (l : list A) : l <> [] -> (0 < length l)%nat.
Proof. destruct l; simpl; [congruence | lia]. Qed.

Lemma transformada_frecuencias_length (s : list R) (dt : R) :
  s <> [] -> length (fst (calcular_transformada_fourier s dt)) = length s.
Proof.
  intros Hs. apply length_pos_of_nonempty in Hs.
  unfold calcular_transformada_fourier, Np.take; simpl.
  now rewrite length_map, argsort_length, fftfreq_length.
Qed.

Lemma transformada_espectro_length (s : list R) (dt : R) :
  s <> [] -> length (snd (calcular_transformada_fourier s dt)) = length s.
Proof.
  intros Hs. apply length_pos_of_nonempty in Hs.
  unfold calcular_transformada_fourier, Np.take; simpl.
  now rewrite length_map, argsort_length, fftfreq_length.
Qed.

(** Position [p] of the output holds bin [idx[p]] of both unsorted arrays. *)
Lemma transformada_nth (s : list R) (dt : R) (p : nat) :
  s <> [] -> (p < length s)%nat ->
  let idx := Np.argsort (Np.fftfreq (length s) dt) in
  (nth p idx 0 < length s)%nat /\
  nth p (fst (calcular_transformada_fourier s dt)) 0 =
    nth (nth p idx 0%nat) (Np.fftfreq (length s) dt) 0 /\
  nth p (snd (calcular_transformada_fourier s dt)) C0 =
    nth (nth p idx 0%nat) (espectro_sin_ordenar s dt) C0.
Proof.
  intros Hs Hp idx. pose proof (length_pos_of_nonempty _ Hs) as Hn.
  assert (Hlen : length idx = length s)
    by (unfold idx; now rewrite argsort_length, fftfreq_length).
  split; [|split].
  - pose proof (argsort_nth_range (Np.fftfreq (length s) dt) p) as H.
    rewrite fftfreq_length in H by assumption. now apply H.
  - unfold calcular_transformada_fourier, Np.take; simpl. fold idx.
    now rewrite (nth_map_lt _ _ 0%nat) by lia.
  - unfold calcular_transformada_fourier, Np.take; simpl. fold idx.
    now rewrite (nth_map_lt _ _ 0%nat) by lia.
Qed.

(** The returned frequency axis is strictly ascending. *)
Lemma frecuencias_estrictas (s : list R) (dt : R) :
  s <> [] -> 0 < dt ->
  StronglySorted Rlt (fst (calcular_transformada_fourier s dt)).
Proof.
  intros Hs Hdt. pose proof (length_pos_of_nonempty _ Hs) as Hn.
  pose proof (fftfreq_length (length s) dt Hn) as HlenF.
  pose proof (argsort_perm (Np.fftfreq (length s) dt)) as Hperm.
  rewrite HlenF in Hperm.
  unfold calcular_transformada_fourier, Np.take; simpl.
  apply sorted_nodup_strict.
  - intros i j Hi Hj. apply argsort_in_range in Hi, Hj.
    rewrite HlenF in Hi, Hj. now apply fftfreq_inj.
  - apply (Permutation_NoDup (Permutation_sym Hperm)). apply seq_NoDup.
  - apply argsort_sorted.
Qed.

(** C7. The returned frequencies are strictly ascending and as many as the
    samples; frequencies and spectrum are the unsorted arrays indexed by
    one and the same permutation, so the (frequency, value) pairs of the
    unsorted transform are exactly the pairs of the output. *)
Theorem transformada_ordenada (señal : list R) (dt : R) :
  señal <> [] -> 0 < dt ->
  let N := length señal in
  let frecuencias := fst (calcular_transformada_fourier señal dt) in
  let espectro := snd (calcular_transformada_fourier señal dt) in
  length frecuencias = N /\ length espectro = N /\
  StronglySorted Rlt frecuencias /\
  (exists idx,
      Permutation idx (seq 0 N) /\
      frecuencias = Np.take 0 (Np.fftfreq N dt) idx /\
      espectro = Np.take C0 (espectro_sin_ordenar señal dt) idx) /\
  Permutation (combine frecuencias espectro)
              (combine (Np.fftfreq N dt) (espectro_sin_ordenar señal dt)).
Proof.
  intros Hs Hdt N frecuencias espectro.
  pose proof (length_pos_of_nonempty _ Hs) as Hn. fold N in Hn.
  pose proof (fftfreq_length N dt Hn) as HlenF.
  pose proof (argsort_perm (Np.fftfreq N dt)) as Hperm.
  rewrite HlenF in Hperm.
  split; [now apply transformada_frecuencias_length|].
  split; [now apply transformada_espectro_length|].
  split; [|split].
  - now apply frecuencias_estrictas.
  - exists (Np.argsort (Np.fftfreq N dt)). now repeat split.
  - unfold frecuencias, espectro, calcular_transformada_fourier; simpl.
    fold N. rewrite take_combine.
    + unfold Np.take.
      eapply perm_trans; [apply Permutation_map, Hperm|].
      replace N with
        (length (combine (Np.fftfreq N dt) (espectro_sin_ordenar señal dt)))
        at 1.
      * apply Permutation_refl'. apply (take_seq (0, C0)).
      * rewrite length_combine, HlenF, espectro_sin_ordenar_length.
        apply Nat.min_id.
    + intros i Hi. apply argsort_in_range in Hi.
      rewrite espectro_sin_ordenar_length. fold N. lia.
Qed.

Lemma transformada_ordenada_witness :
  StronglySorted Rlt (fst (calcular_transformada_fourier [1; 1; 0] 1)).
Proof.
  apply (transformada_ordenada [1; 1; 0] 1); [discriminate | lra].
Defined.

(** ** The transform: value and frequency of each bin *)

Lemma Cexp_imag (θ : R) : Cexp (mkC 0 θ) = mkC (cos θ) (sin θ).
Proof. unfold Cexp; simpl. rewrite exp_0. f_equal; lra. Qed.

Lemma Re_Csum (l : list C) : Re (Csum l) = Rsum (map Re l).
Proof. induction l as [|z l IH]; simpl; [reflexivity | now rewrite IH]. Qed.

Lemma Im_Csum (l : list C) : Im (Csum l) = Rsum (map Im l).
Proof. induction l as [|z l IH]; simpl; [reflexivity | now rewrite IH]. Qed.

Lemma C_eq (z w : C) : Re z = Re w -> Im z = Im w -> z = w.
Proof. destruct z, w; simpl; intros -> ->; reflexivity. Qed.

Lemma fft_nth (a : list R) (k : nat) :
  (k < length a)%nat ->
  nth k (Np.fft a) C0 =
  Csum (map (fun n =>
               Cscale (nth n a 0)
                 (Cexp (mkC 0 (- (2 * PI * INR k * INR n / INR (length a))))))
            (seq 0 (length a))).
Proof.
  intros Hk. unfold Np.fft.
  rewrite (nth_map_lt _ _ 0%nat) by now rewrite length_seq.
  now rewrite seq_nth.
Qed.

Lemma espectro_sin_ordenar_nth (s : list R) (dt : R) (k : nat) :
  (k < length s)%nat ->
  nth k (espectro_sin_ordenar s dt) C0 = Cscale dt (nth k (Np.fft s) C0).
Proof.
  intros Hk. unfold espectro_sin_ordenar.
  now rewrite (nth_map_lt _ _ C0) by now rewrite fft_length.
Qed.

Lemma Rsum_scale (c : R) (l : list R) : Rsum (map (Rmult c) l) = c * Rsum l.
Proof. induction l as [|x l IH]; simpl; [lra | rewrite IH; lra]. Qed.

Lemma Rsum_opp {A} (f : A -> R) (l : list A) :
  Rsum (map (fun x => - f x) l) = - Rsum (map f l).
Proof. induction l as [|x l IH]; simpl; [lra | rewrite IH; lra]. Qed.

Lemma Rsum_ext {A} (f g : A -> R) (l : list A) :
  (forall x, In x l -> f x = g x) -> Rsum (map f l) = Rsum (map g l).
Proof. intros H. now rewrite (map_ext_in _ _ _ H). Qed.

(** Real and imaginary part of a bin of the unsorted spectrum. *)
Lemma espectro_sin_ordenar_partes (s : list R) (dt : R) (k : nat) :
  (k < length s)%nat ->
  let N := length s in
  let θ := fun n => 2 * PI * INR k * INR n / INR N in
  nth k (espectro_sin_ordenar s dt) C0 =
  mkC (dt * Rsum (map (fun n => nth n s 0 * cos (θ n)) (seq 0 N)))
      (- (dt * Rsum (map (fun n => nth n s 0 * sin (θ n)) (seq 0 N)))).
Proof.
  intros Hk N θ. rewrite espectro_sin_ordenar_nth, fft_nth by assumption.
  fold N. apply C_eq; simpl.
  - rewrite Re_Csum, map_map. f_equal. apply Rsum_ext. intros n _.
    rewrite Cexp_imag; simpl. now rewrite cos_neg.
  - rewrite Im_Csum, map_map.
    transitivity
      (dt * - Rsum (map (fun n => nth n s 0 * sin (θ n)) (seq 0 N))); [|lra].
    f_equal. rewrite <- Rsum_opp. apply Rsum_ext. intros n _.
    rewrite Cexp_imag; simpl. rewrite sin_neg. unfold θ. lra.
Qed.

(** C1. Before the re-ordering, bin [k] of the spectrum is
    [dt * sum_n signal[n] * exp(-i 2 pi k n / N)] (real part
    [dt * sum_n signal[n] cos(2 pi k n / N)], imaginary part
    [- dt * sum_n signal[n] sin(2 pi k n / N)]) and bin [k] of the
    frequency axis is [k/(N dt)] when [2k < N] and [(k-N)/(N dt)] otherwise;
    the function returns these two arrays indexed by the sorting
    permutation of the frequencies. *)
Theorem transformada_bin (señal : list R) (dt : R) (k : nat) :
  señal <> [] -> 0 < dt -> (k < length señal)%nat ->
  let N := length señal in
  nth k (espectro_sin_ordenar señal dt) C0 =
    Cscale dt
      (Csum (map (fun n =>
                    Cscale (nth n señal 0)
                      (Cexp (mkC 0 (- (2 * PI * INR k * INR n / INR N)))))
                 (seq 0 N))) /\
  nth k (espectro_sin_ordenar señal dt) C0 =
    mkC (dt * Rsum (map (fun n => nth n señal 0 *
                                  cos (2 * PI * INR k * INR n / INR N))
                        (seq 0 N)))
        (- (dt * Rsum (map (fun n => nth n señal 0 *
                                     sin (2 * PI * INR k * INR n / INR N))
                           (seq 0 N)))) /\
  nth k (Np.fftfreq N dt) 0 =
    (if Nat.ltb (2 * k) N then INR k / (INR N * dt)
     else (INR k - INR N) / (INR N * dt)) /\
  calcular_transformada_fourier señal dt =
    (Np.take 0 (Np.fftfreq N dt) (Np.argsort (Np.fftfreq N dt)),
     Np.take C0 (espectro_sin_ordenar señal dt)
       (Np.argsort (Np.fftfreq N dt))).
Proof.
  intros Hs Hdt Hk N. split; [|split; [|split]].
  - now rewrite espectro_sin_ordenar_nth, fft_nth.
  - now apply espectro_sin_ordenar_partes.
  - rewrite fftfreq_nth by assumption. unfold bin_entero.
    destruct (Nat.ltb (2 * k) N).
    + rewrite <- INR_IZR_INZ. unfold Rdiv. lra.
    + rewrite minus_IZR, <- !INR_IZR_INZ. unfold Rdiv. lra.
  - reflexivity.
Qed.

Lemma transformada_bin_witness :
  nth 2 (Np.fftfreq 3 (1 / 2)) 0 = (INR 2 - INR 3) / (INR 3 * (1 / 2)).
Proof.
  apply (transformada_bin [1; 0; 4] (1 / 2) 2);
    [discriminate | lra | simpl; lia].
Defined.

(** ** Linearity *)

Ltac C_ring := apply C_eq; simpl; ring.

Lemma Csum_add {A} (f g : A -> C) (l : list A) :
  Csum (map (fun n => Cadd (f n) (g n)) l) =
  Cadd (Csum (map f l)) (Csum (map g l)).
Proof.
  induction l as [|x l IH]; simpl; [C_ring|]. rewrite IH. C_ring.
Qed.

Lemma Csum_scale {A} (c : R) (f : A -> C) (l : list A) :
  Csum (map (fun n => Cscale c (f n)) l) = Cscale c (Csum (map f l)).
Proof.
  induction l as [|x l IH]; simpl; [C_ring|]. rewrite IH. C_ring.
Qed.

Lemma Csum_ext {A} (f g : A -> C) (l : list A) :
  (forall x, In x l -> f x = g x) -> Csum (map f l) = Csum (map g l).
Proof. intros H. now rewrite (map_ext_in _ _ _ H). Qed.

Lemma vscale_length (a : R) (x : list R) : length (vscale a x) = length x.
Proof. apply length_map. Qed.

Lemma vadd_length (x y : list R) :
  length x = length y -> length (vadd x y) = length x.
Proof.
  intros H. unfold vadd. rewrite length_map, length_combine, H.
  apply Nat.min_id.
Qed.

Lemma combinacion_nth (a b : R) (x y : list R) (n : nat) :
  length x = length y -> (n < length x)%nat ->
  nth n (vadd (vscale a x) (vscale b y)) 0 = a * nth n x 0 + b * nth n y 0.
Proof.
  intros Hlen Hn. unfold vadd.
  rewrite (nth_map_lt _ _ (0, 0))
    by (rewrite length_combine, !vscale_length; lia).
  rewrite combine_nth_lt by (rewrite vscale_length; lia). simpl.
  unfold vscale. now rewrite !(nth_map_lt _ _ 0) by lia.
Qed.

Lemma Cvadd_nth (x y : list C) (n : nat) :
  (n < length x)%nat -> (n < length y)%nat ->
  nth n (Cvadd x y) C0 = Cadd (nth n x C0) (nth n y C0).
Proof.
  intros Hx Hy. unfold Cvadd.
  rewrite (nth_map_lt _ _ (C0, C0)) by (rewrite length_combine; lia).
  now rewrite combine_nth_lt.
Qed.

Lemma Cvscale_nth (a : R) (x : list C) (n : nat) :
  (n < length x)%nat -> nth n (Cvscale a x) C0 = Cscale a (nth n x C0).
Proof. intros Hx. unfold Cvscale. now rewrite (nth_map_lt _ _ C0). Qed.

Lemma Cvadd_length (x y : list C) :
  length x = length y -> length (Cvadd x y) = length x.
Proof.
  intros H. unfold Cvadd. rewrite length_map, length_combine, H.
  apply Nat.min_id.
Qed.

(** The unsorted transform is linear. *)
Lemma espectro_sin_ordenar_lineal (a b : R) (s1 s2 : list R) (dt : R) :
  length s1 = length s2 ->
  espectro_sin_ordenar (vadd (vscale a s1) (vscale b s2)) dt =
  Cvadd (Cvscale a (espectro_sin_ordenar s1 dt))
        (Cvscale b (espectro_sin_ordenar s2 dt)).
Proof.
  intros Hlen.
  assert (Hc : length (vadd (vscale a s1) (vscale b s2)) = length s1)
    by (rewrite vadd_length; rewrite !vscale_length; auto).
  apply (nth_ext _ _ C0 C0).
  - rewrite Cvadd_length; unfold Cvscale; rewrite !length_map,
      !espectro_sin_ordenar_length; congruence.
  - intros k Hk. rewrite espectro_sin_ordenar_length, Hc in Hk.
    rewrite Cvadd_nth, !Cvscale_nth
      by (unfold Cvscale; rewrite ?length_map, espectro_sin_ordenar_length;
          lia).
    rewrite !espectro_sin_ordenar_nth by lia.
    rewrite !fft_nth by lia. rewrite Hc, <- Hlen.
    rewrite <- !Csum_scale, <- Csum_add.
    apply Csum_ext. intros n Hn. apply in_seq in Hn.
    rewrite combinacion_nth by lia. C_ring.
Qed.

Lemma take_ext_in {A} (d : A) (x y : list A) (idx : list nat) :
  (forall i, In i idx -> nth i x d = nth i y d) ->
  Np.take d x idx = Np.take d y idx.
Proof. intros H. unfold Np.take. now apply map_ext_in. Qed.

Lemma take_Cvadd_Cvscale (a b : R) (x y : list C) (idx : list nat) :
  (forall i, In i idx -> (i < length x)%nat /\ (i < length y)%nat) ->
  Np.take C0 (Cvadd (Cvscale a x) (Cvscale b y)) idx =
  Cvadd (Cvscale a (Np.take C0 x idx)) (Cvscale b (Np.take C0 y idx)).
Proof.
  intros H. unfold Np.take, Cvadd, Cvscale.
  induction idx as [|i idx IH]; simpl; [reflexivity|].
  rewrite <- IH by (intros j Hj; apply H; now right). f_equal.
  destruct (H i (or_introl eq_refl)) as [Hx Hy].
  fold (Cvscale a x) (Cvscale b y) (Cvadd (Cvscale a x) (Cvscale b y)).
  rewrite Cvadd_nth, !Cvscale_nth;
    unfold Cvscale; rewrite ?length_map; auto.
Qed.

Lemma Cmod_sub_diag (z : C) : Cmod (Csub z z) = 0.
Proof.
  unfold Cmod; simpl.
  replace ((Re z - Re z) * (Re z - Re z) + (Im z - Im z) * (Im z - Im z))
    with 0 by ring.
  apply sqrt_0.
Qed.

Lemma amax_zeros (l : list R) :
  l <> [] -> (forall x, In x l -> x = 0) -> Np.amax l = Some 0.
Proof.
  destruct l as [|x l]; [congruence|]. intros _ H. simpl.
  rewrite (H x) by now left.
  assert (Hl : forall y, In y l -> y = 0) by (intros y Hy; apply H; now right).
  clear H. f_equal. induction l as [|y l IH]; simpl; [reflexivity|].
  rewrite (Hl y) by now left.
  replace (Rmax 0 0) with 0 by (symmetry; apply Rmax_left; lra).
  apply IH. intros z Hz. apply Hl. now right.
Qed.

Lemma error_de_iguales (x : list C) :
  x <> [] -> Np.amax (map Cmod (Cvsub x x)) = Some 0.
Proof.
  intros Hx. apply amax_zeros.
  - destruct x; [congruence | discriminate].
  - intros r Hr. apply in_map_iff in Hr. destruct Hr as (z & <- & Hz).
    unfold Cvsub in Hz. apply in_map_iff in Hz.
    destruct Hz as ([u v] & <- & Huv). simpl.
    assert (u = v) as ->; [|apply Cmod_sub_diag].
    clear Hx. induction x as [|w x IH]; simpl in Huv; [easy|].
    destruct Huv as [E|Huv]; [now inversion E | now apply IH].
Qed.

(** The sorted spectrum is linear in the signal. *)
Lemma transformada_lineal (a b : R) (s1 s2 : list R) (dt : R) :
  s1 <> [] -> length s1 = length s2 ->
  snd (calcular_transformada_fourier (vadd (vscale a s1) (vscale b s2)) dt) =
  Cvadd (Cvscale a (snd (calcular_transformada_fourier s1 dt)))
        (Cvscale b (snd (calcular_transformada_fourier s2 dt))).
Proof.
  intros Hs Hlen. unfold calcular_transformada_fourier; simpl.
  rewrite vadd_length, !vscale_length by (rewrite !vscale_length; auto).
  rewrite <- Hlen, espectro_sin_ordenar_lineal by assumption.
  apply take_Cvadd_Cvscale. intros i Hi. apply argsort_in_range in Hi.
  rewrite fftfreq_length in Hi by now apply length_pos_of_nonempty.
  rewrite !espectro_sin_ordenar_length. lia.
Qed.

(** C5. For all coefficients [a], [b], non-empty signals of one length
    and [dt > 0]: the verifier combines the signals into [a*s1 + b*s2],
    transforms the combination, forms
    [a*spectrum(s1) + b*spectrum(s2)] from the two separate transforms,
    both arrays have one entry per sample and are equal position by
    position, and the error it prints, the largest modulus of their
    differences, is exactly zero; [verificar_linealidad] is the case
    [a = 2], [b = 3]. *)
Theorem linealidad_exacta (a b : R) (t señal1 señal2 : list R) (dt : R) :
  señal1 <> [] -> length señal1 = length señal2 -> 0 < dt ->
  let r := linealidad_con a b señal1 señal2 dt in
  lin_señal_combinada r = vadd (vscale a señal1) (vscale b señal2) /\
  lin_espectro_combinada r =
    snd (calcular_transformada_fourier
           (vadd (vscale a señal1) (vscale b señal2)) dt) /\
  lin_espectro_lineal r =
    Cvadd (Cvscale a (snd (calcular_transformada_fourier señal1 dt)))
          (Cvscale b (snd (calcular_transformada_fourier señal2 dt))) /\
  length (lin_espectro_combinada r) = length señal1 /\
  lin_espectro_combinada r = lin_espectro_lineal r /\
  lin_error r =
    Np.amax (map Cmod (Cvsub (lin_espectro_combinada r)
                             (lin_espectro_lineal r))) /\
  lin_error r = Some 0 /\
  (a = 2 -> b = 3 -> verificar_linealidad t señal1 señal2 dt = r).
Proof.
  intros Hs Hlen Hdt r.
  pose proof (length_pos_of_nonempty _ Hs) as HN.
  assert (Hcomb : length (vadd (vscale a señal1) (vscale b señal2)) =
                  length señal1)
    by (rewrite vadd_length, vscale_length; rewrite ?vscale_length; auto).
  assert (Hne : vadd (vscale a señal1) (vscale b señal2) <> []).
  { intros Hnil. rewrite Hnil in Hcomb. simpl in Hcomb. lia. }
  assert (Heq : lin_espectro_combinada r = lin_espectro_lineal r).
  { unfold r, linealidad_con; cbn [lin_espectro_combinada lin_espectro_lineal].
    now apply transformada_lineal. }
  assert (HlenE : length (lin_espectro_combinada r) = length señal1).
  { unfold r, linealidad_con; cbn [lin_espectro_combinada].
    now rewrite transformada_espectro_length. }
  split; [reflexivity|]. split; [reflexivity|]. split; [reflexivity|].
  split; [exact HlenE|]. split; [exact Heq|]. split; [reflexivity|].
  split.
  - unfold r, linealidad_con; cbn [lin_error].
    fold (lin_espectro_combinada r) (lin_espectro_lineal r).
    change (Np.amax (map Cmod (Cvsub (lin_espectro_combinada r)
                                     (lin_espectro_lineal r))) = Some 0).
    rewrite <- Heq. apply error_de_iguales.
    intros Hnil. rewrite Hnil in HlenE. simpl in HlenE. lia.
  - intros -> ->. reflexivity.
Qed.

Lemma linealidad_exacta_witness :
  lin_error (linealidad_con 2 3 [1; 0] [0; 1] 1) = Some 0 /\
  verificar_linealidad [0; 1] [1; 0] [0; 1] 1 =
  linealidad_con 2 3 [1; 0] [0; 1] 1.
Proof.
  destruct (linealidad_exacta 2 3 [0; 1] [1; 0] [0; 1] 1)
    as (_ & _ & _ & _ & _ & _ & Herr & Hver);
    [discriminate | reflexivity | lra |].
  split; [exact Herr | now apply Hver].
Defined.

(** ** Time shift: which shift the verifier applies *)

Lemma roll_length {A} (a : list A) (m : Z) : length (Np.roll a m) = length a.
Proof.
  unfold Np.roll. rewrite length_app, length_skipn, length_firstn. lia.
Qed.

Lemma roll_nth {A} (d : A) (a : list A) (m : Z) (i : nat) :
  (i < length a)%nat ->
  nth i (Np.roll a m) d =
  nth (Z.to_nat ((Z.of_nat i - m) mod Z.of_nat (length a))) a d.
Proof.
  intros Hi. unfold Np.roll.
  set (n := length a) in *.
  assert (Hn : Nat.eqb n 0 = false) by (apply Nat.eqb_neq; lia).
  rewrite Hn.
  set (off := Z.to_nat (m mod Z.of_nat n)).
  assert (Hoff : (Z.of_nat off = m mod Z.of_nat n)%Z).
  { unfold off. rewrite Z2Nat.id; [reflexivity|].
    apply Z.mod_pos_bound. lia. }
  assert (Hlt : (off < n)%nat).
  { pose proof (Z.mod_pos_bound m (Z.of_nat n)). lia. }
  assert (Hm : (m = Z.of_nat n * (m / Z.of_nat n) + Z.of_nat off)%Z).
  { rewrite Hoff. apply Z.div_mod. lia. }
  destruct (Nat.lt_ge_cases i off) as [Hio|Hio].
  - rewrite app_nth1 by (rewrite length_skipn; fold n; lia).
    rewrite nth_skipn. f_equal.
    replace (Z.of_nat i - m)%Z
      with (Z.of_nat (n - off + i) + (- (m / Z.of_nat n) - 1) * Z.of_nat n)%Z
      by (rewrite Hm at 2; lia).
    rewrite Z.mod_add by lia. rewrite Z.mod_small by lia. lia.
  - rewrite app_nth2 by (rewrite length_skipn; fold n; lia).
    rewrite length_skipn. fold n. rewrite nth_firstn.
    replace (i - (n - (n - off)) <? n - off)%nat with true
      by (symmetry; apply Nat.ltb_lt; lia).
    f_equal.
    replace (Z.of_nat i - m)%Z
      with (Z.of_nat (i - off) + (- (m / Z.of_nat n)) * Z.of_nat n)%Z
      by (rewrite Hm at 2; lia).
    rewrite Z.mod_add by lia. rewrite Z.mod_small by lia. lia.
Qed.

Lemma roll_rotacion (s : list R) (m : Z) : Np.roll s m = rotacion s m.
Proof.
  apply (nth_ext _ _ 0 0).
  - unfold rotacion. now rewrite roll_length, length_map, length_seq.
  - intros i Hi. rewrite roll_length in Hi. rewrite roll_nth by assumption.
    unfold rotacion.
    rewrite (nth_map_lt _ _ 0%nat) by now rewrite length_seq.
    now rewrite seq_nth.
Qed.

Lemma des_señal_desplazada_eq (t s : list R) (dt t0 : R) :
  des_señal_desplazada (verificar_desplazamiento_tiempo t s dt t0) =
  Np.roll s (int_of_float (t0 / dt)).
Proof.
  unfold verificar_desplazamiento_tiempo.
  now destruct (calcular_transformada_fourier s dt).
Qed.

Lemma Int_part_IZR (z : Z) : Int_part (IZR z) = z.
Proof. symmetry. apply Int_part_spec. lra. Qed.

Lemma int_of_float_IZR (z : Z) : int_of_float (IZR z) = z.
Proof.
  unfold int_of_float. destruct (Rle_dec 0 (IZR z)).
  - apply Int_part_IZR.
  - rewrite <- opp_IZR, Int_part_IZR. lia.
Qed.


(** ** Roots of unity *)

Lemma cos_period_Z (x : R) (c : Z) : cos (x + 2 * IZR c * PI) = cos x.
Proof.
  destruct (Z_le_gt_dec 0 c) as [Hc|Hc].
  - rewrite <- (Z2Nat.id c Hc), <- INR_IZR_INZ. apply cos_period.
  - rewrite <- (cos_period (x + 2 * IZR c * PI) (Z.to_nat (- c))).
    f_equal. rewrite INR_IZR_INZ, Z2Nat.id by lia. rewrite opp_IZR. ring.
Qed.

Lemma sin_period_Z (x : R) (c : Z) : sin (x + 2 * IZR c * PI) = sin x.
Proof.
  destruct (Z_le_gt_dec 0 c) as [Hc|Hc].
  - rewrite <- (Z2Nat.id c Hc), <- INR_IZR_INZ. apply sin_period.
  - rewrite <- (sin_period (x + 2 * IZR c * PI) (Z.to_nat (- c))).
    f_equal. rewrite INR_IZR_INZ, Z2Nat.id by lia. rewrite opp_IZR. ring.
Qed.

Lemma omega_partes (N : nat) (j : Z) :
  omega N j = mkC (cos (2 * PI * IZR j / INR N))
                  (- sin (2 * PI * IZR j / INR N)).
Proof. unfold omega. now rewrite Cexp_imag, cos_neg, sin_neg. Qed.

Lemma omega_add (N : nat) (a b : Z) :
  omega N (a + b) = Cmul (omega N a) (omega N b).
Proof.
  rewrite !omega_partes. rewrite plus_IZR.
  replace (2 * PI * (IZR a + IZR b) / INR N)
    with (2 * PI * IZR a / INR N + 2 * PI * IZR b / INR N)
    by (unfold Rdiv; ring).
  rewrite cos_plus, sin_plus. C_ring.
Qed.

Lemma omega_period (N : nat) (j c : Z) :
  (0 < N)%nat -> omega N (j + c * Z.of_nat N) = omega N j.
Proof.
  intros HN. rewrite !omega_partes.
  assert (HNr : INR N <> 0) by (apply not_0_INR; lia).
  replace (2 * PI * IZR (j + c * Z.of_nat N) / INR N)
    with (2 * PI * IZR j / INR N + 2 * IZR c * PI).
  - now rewrite cos_period_Z, sin_period_Z.
  - rewrite plus_IZR, mult_IZR, <- INR_IZR_INZ. field. assumption.
Qed.

Lemma omega_mod (N : nat) (a b : Z) :
  (0 < N)%nat -> (a mod Z.of_nat N = b mod Z.of_nat N)%Z ->
  omega N a = omega N b.
Proof.
  intros HN Hab.
  rewrite (Z.div_mod a (Z.of_nat N)), (Z.div_mod b (Z.of_nat N)) by lia.
  rewrite Hab.
  rewrite (Z.add_comm _ (b mod _)), (Z.add_comm _ (b mod _)).
  rewrite (Z.mul_comm _ (a / _)), (Z.mul_comm _ (b / _)).
  now rewrite !omega_period.
Qed.

Lemma fft_nth_omega (a : list R) (k : nat) :
  (k < length a)%nat ->
  nth k (Np.fft a) C0 =
  Csum (map (fun n => Cscale (nth n a 0)
                        (omega (length a) (Z.of_nat k * Z.of_nat n)))
            (seq 0 (length a))).
Proof.
  intros Hk. rewrite fft_nth by assumption.
  apply Csum_ext. intros n _. unfold omega.
  now rewrite mult_IZR, <- !INR_IZR_INZ, <- Rmult_assoc.
Qed.

(** ** Time shift: the circular-shift theorem *)

Lemma Csum_perm (l l' : list C) : Permutation l l' -> Csum l = Csum l'.
Proof.
  induction 1 as [| z l l' _ IH | z w l | l l' l'' _ IH1 _ IH2]; simpl.
  - reflexivity.
  - now rewrite IH.
  - C_ring.
  - congruence.
Qed.

Lemma Csum_Cmul {A} (c : C) (f : A -> C) (l : list A) :
  Csum (map (fun j => Cmul c (f j)) l) = Cmul c (Csum (map f l)).
Proof.
  induction l as [|x l IH]; simpl; [C_ring|]. rewrite IH. C_ring.
Qed.

Lemma roll_perm {A} (l : list A) (m : Z) : Permutation (Np.roll l m) l.
Proof.
  unfold Np.roll.
  eapply perm_trans; [apply Permutation_app_comm|].
  now rewrite firstn_skipn.
Qed.

(** The source index of position [n] after a shift by [m]. *)
Lemma roll_indices (N : nat) (m : Z) :
  map (fun n => Z.to_nat ((Z.of_nat n - m) mod Z.of_nat N)) (seq 0 N) =
  Np.roll (seq 0 N) m.
Proof.
  apply (nth_ext _ _ 0%nat 0%nat).
  - now rewrite roll_length, length_map.
  - intros n Hn. rewrite length_map, length_seq in Hn.
    rewrite (nth_map_lt _ _ 0%nat) by now rewrite length_seq.
    rewrite roll_nth by now rewrite length_seq.
    rewrite length_seq.
    assert (Hb : (Z.to_nat ((Z.of_nat n - m) mod Z.of_nat N) < N)%nat).
    { pose proof (Z.mod_pos_bound (Z.of_nat n - m) (Z.of_nat N)). lia. }
    now rewrite !seq_nth by assumption.
Qed.

Lemma fft_roll (s : list R) (m : Z) (k : nat) :
  (k < length s)%nat ->
  nth k (Np.fft (Np.roll s m)) C0 =
  Cmul (omega (length s) (Z.of_nat k * m)) (nth k (Np.fft s) C0).
Proof.
  intros Hk. set (N := length s) in *.
  rewrite !fft_nth_omega by (rewrite ?roll_length; assumption).
  rewrite roll_length. fold N. rewrite <- Csum_Cmul.
  set (σ := fun n => Z.to_nat ((Z.of_nat n - m) mod Z.of_nat N)).
  set (g := fun j => Cmul (omega N (Z.of_nat k * m))
                       (Cscale (nth j s 0)
                          (omega N (Z.of_nat k * Z.of_nat j)))).
  transitivity (Csum (map g (map σ (seq 0 N)))).
  - rewrite map_map. apply Csum_ext. intros n Hn. apply in_seq in Hn.
    rewrite roll_nth by (fold N; lia). fold N. fold (σ n). unfold g.
    assert (Hσ : (Z.of_nat (σ n) = (Z.of_nat n - m) mod Z.of_nat N)%Z).
    { unfold σ. apply Z2Nat.id. apply Z.mod_pos_bound. lia. }
    assert (Hω : omega N (Z.of_nat k * Z.of_nat n) =
                 Cmul (omega N (Z.of_nat k * m))
                      (omega N (Z.of_nat k * Z.of_nat (σ n)))).
    { rewrite <- omega_add. apply omega_mod; [lia|].
      rewrite Hσ.
      set (q := ((Z.of_nat n - m) / Z.of_nat N)%Z).
      replace ((Z.of_nat n - m) mod Z.of_nat N)%Z
        with (Z.of_nat n - m - Z.of_nat N * q)%Z
        by (unfold q; symmetry; apply Z.mod_eq; lia).
      replace (Z.of_nat k * m +
               Z.of_nat k * (Z.of_nat n - m - Z.of_nat N * q))%Z
        with (Z.of_nat k * Z.of_nat n + (- Z.of_nat k * q) * Z.of_nat N)%Z
        by ring.
      now rewrite Z.mod_add by lia. }
    rewrite Hω. C_ring.
  - apply Csum_perm.
    change (Permutation (map g (map σ (seq 0 N))) (map g (seq 0 N))).
    apply Permutation_map. unfold σ. rewrite roll_indices. apply roll_perm.
Qed.

Lemma verificar_desplazamiento_tiempo_eq (t s : list R) (dt t0 : R) :
  verificar_desplazamiento_tiempo t s dt t0 =
  let desplazada := Np.roll s (int_of_float (t0 / dt)) in
  let espectro_desplazado :=
    snd (calcular_transformada_fourier desplazada dt) in
  let espectro_teorico :=
    Cvmul (map (fun f => Cexp (mkC 0 (- 2 * PI * f * t0)))
               (fst (calcular_transformada_fourier s dt)))
          (snd (calcular_transformada_fourier s dt)) in
  mkDesplazamiento desplazada espectro_desplazado espectro_teorico
    (Np.amax (map Cmod (Cvsub espectro_desplazado espectro_teorico))).
Proof.
  unfold verificar_desplazamiento_tiempo.
  now destruct (calcular_transformada_fourier s dt).
Qed.

Lemma Cvmul_map {A} (f g : A -> C) (l : list A) :
  Cvmul (map f l) (map g l) = map (fun i => Cmul (f i) (g i)) l.
Proof.
  unfold Cvmul. induction l as [|x l IH]; simpl; [reflexivity|].
  now rewrite IH.
Qed.

Lemma bin_entero_mod (N k : nat) :
  (Z.of_nat k mod Z.of_nat N = bin_entero N k mod Z.of_nat N)%Z.
Proof.
  unfold bin_entero. destruct (Nat.ltb (2 * k) N); [reflexivity|].
  replace (Z.of_nat k - Z.of_nat N)%Z
    with (Z.of_nat k + (-1) * Z.of_nat N)%Z by ring.
  symmetry. apply Z_mod_plus_full.
Qed.

(** The theoretical factor at bin [k] for a shift of [m] whole steps. *)
Lemma factor_teorico_bin (N k : nat) (dt : R) (m : Z) :
  (k < N)%nat -> 0 < dt ->
  Cexp (mkC 0 (- 2 * PI * nth k (Np.fftfreq N dt) 0 * (IZR m * dt))) =
  omega N (Z.of_nat k * m).
Proof.
  intros Hk Hdt. rewrite fftfreq_nth by assumption.
  assert (HN : INR N <> 0) by (apply not_0_INR; lia).
  transitivity (omega N (bin_entero N k * m)).
  - unfold omega. do 2 f_equal. rewrite mult_IZR. field. split; lra.
  - apply omega_mod; [lia|].
    rewrite (Z.mul_mod (bin_entero N k)), (Z.mul_mod (Z.of_nat k)) by lia.
    now rewrite bin_entero_mod.
Qed.

Lemma verificar_desplazamiento_con_eq (m : Z) (t s : list R) (dt t0 : R) :
  verificar_desplazamiento_con m t s dt t0 =
  let desplazada := Np.roll s m in
  let espectro_desplazado :=
    snd (calcular_transformada_fourier desplazada dt) in
  let espectro_teorico :=
    Cvmul (map (fun f => Cexp (mkC 0 (- 2 * PI * f * t0)))
               (fst (calcular_transformada_fourier s dt)))
          (snd (calcular_transformada_fourier s dt)) in
  mkDesplazamiento desplazada espectro_desplazado espectro_teorico
    (Np.amax (map Cmod (Cvsub espectro_desplazado espectro_teorico))).
Proof.
  unfold verificar_desplazamiento_con.
  now destruct (calcular_transformada_fourier s dt).
Qed.

Lemma verificar_desplazamiento_tiempo_con (t s : list R) (dt t0 : R) :
  verificar_desplazamiento_tiempo t s dt t0 =
  verificar_desplazamiento_con (int_of_float (t0 / dt)) t s dt t0.
Proof. reflexivity. Qed.

(** The circular-shift theorem on the sorted spectra: the transform of
    the signal shifted by [m] samples is [exp(-i 2 pi f m dt)] times the
    transform of the signal, at every position. *)
Lemma transformada_desplazada (s : list R) (dt : R) (m : Z) :
  s <> [] -> 0 < dt ->
  snd (calcular_transformada_fourier (Np.roll s m) dt) =
  Cvmul (map (fun f => Cexp (mkC 0 (- 2 * PI * f * (IZR m * dt))))
             (fst (calcular_transformada_fourier s dt)))
        (snd (calcular_transformada_fourier s dt)).
Proof.
  intros Hs Hdt. pose proof (length_pos_of_nonempty _ Hs) as HN.
  unfold calcular_transformada_fourier; simpl. rewrite roll_length.
  unfold Np.take. rewrite map_map, Cvmul_map.
  apply map_ext_in. intros k Hk. apply argsort_in_range in Hk.
  rewrite fftfreq_length in Hk by assumption.
  rewrite factor_teorico_bin by assumption.
  rewrite !espectro_sin_ordenar_nth by (rewrite ?roll_length; assumption).
  rewrite fft_roll by assumption. C_ring.
Qed.

(** When the verifier shifts by exactly the [m] samples that the shift
    [t0 = m dt] asks for, its two spectra are equal and the error is 0. *)
Lemma desplazamiento_con_exacto (t s : list R) (dt : R) (m : Z) :
  s <> [] -> 0 < dt ->
  let r := verificar_desplazamiento_con m t s dt (IZR m * dt) in
  des_espectro_desplazado r =
    snd (calcular_transformada_fourier (Np.roll s m) dt) /\
  des_espectro_teorico r =
    Cvmul (map (fun f => Cexp (mkC 0 (- 2 * PI * f * (IZR m * dt))))
               (fst (calcular_transformada_fourier s dt)))
          (snd (calcular_transformada_fourier s dt)) /\
  des_espectro_desplazado r = des_espectro_teorico r /\
  des_error r = Some 0.
Proof.
  intros Hs Hdt r. unfold r. rewrite verificar_desplazamiento_con_eq.
  cbv zeta.
  cbn [des_espectro_desplazado des_espectro_teorico des_error].
  pose proof (transformada_desplazada s dt m Hs Hdt) as Heq.
  split; [reflexivity|]. split; [reflexivity|]. split; [exact Heq|].
  rewrite <- Heq. apply error_de_iguales.
  intros Hnil. apply (f_equal (@length C)) in Hnil.
  pose proof (length_pos_of_nonempty _ Hs) as HN.
  rewrite transformada_espectro_length in Hnil.
  - rewrite roll_length in Hnil. simpl in Hnil. lia.
  - intros Hr. apply (f_equal (@length R)) in Hr.
    rewrite roll_length in Hr. simpl in Hr. lia.
Qed.

(** ** Finite sums *)

Lemma Rsum_app (l l' : list R) : Rsum (l ++ l') = Rsum l + Rsum l'.
Proof. induction l as [|x l IH]; simpl; [lra | rewrite IH; lra]. Qed.

Lemma Rsum_perm (l l' : list R) : Permutation l l' -> Rsum l = Rsum l'.
Proof.
  induction 1 as [| x l l' _ IH | x y l | l l' l'' _ IH1 _ IH2]; simpl;
    try lra.
Qed.

Lemma Rsum_map_add {A} (f g : A -> R) (l : list A) :
  Rsum (map (fun x => f x + g x) l) = Rsum (map f l) + Rsum (map g l).
Proof. induction l as [|x l IH]; simpl; [lra | rewrite IH; lra]. Qed.

Lemma Rsum_map_scale {A} (c : R) (f : A -> R) (l : list A) :
  Rsum (map (fun x => c * f x) l) = c * Rsum (map f l).
Proof. induction l as [|x l IH]; simpl; [lra | rewrite IH; lra]. Qed.

Lemma Rsum_map_zero {A} (f : A -> R) (l : list A) :
  (forall x, In x l -> f x = 0) -> Rsum (map f l) = 0.
Proof.
  induction l as [|x l IH]; intros H; simpl; [reflexivity|].
  rewrite (H x) by now left. rewrite IH; [lra|].
  intros y Hy. apply H. now right.
Qed.

Lemma Rsum_map_const {A} (c : R) (f : A -> R) (l : list A) :
  (forall x, In x l -> f x = c) -> Rsum (map f l) = INR (length l) * c.
Proof.
  induction l as [|x l IH]; intros H; [simpl; lra|].
  change (length (x :: l)) with (S (length l)). rewrite S_INR. simpl.
  rewrite (H x) by now left. rewrite IH; [lra|].
  intros y Hy. apply H. now right.
Qed.

Lemma Rsum_swap {A B} (F : A -> B -> R) (l1 : list A) (l2 : list B) :
  Rsum (map (fun x => Rsum (map (fun y => F x y) l2)) l1) =
  Rsum (map (fun y => Rsum (map (fun x => F x y) l1)) l2).
Proof.
  induction l1 as [|x l1 IH]; simpl.
  - symmetry. now apply Rsum_map_zero.
  - rewrite IH. symmetry. apply Rsum_map_add.
Qed.

Lemma Rsum_mult {A B} (f : A -> R) (g : B -> R) (l1 : list A) (l2 : list B) :
  Rsum (map f l1) * Rsum (map g l2) =
  Rsum (map (fun x => Rsum (map (fun y => f x * g y) l2)) l1).
Proof.
  induction l1 as [|x l1 IH]; simpl; [lra|].
  rewrite <- IH, Rsum_map_scale. lra.
Qed.

Lemma Rsum_cuadrados (a b : nat -> R) (l : list nat) :
  Rsum (map a l) * Rsum (map a l) + Rsum (map b l) * Rsum (map b l) =
  Rsum (map (fun n => Rsum (map (fun m => a n * a m + b n * b m) l)) l).
Proof.
  rewrite (Rsum_ext
             (fun n => Rsum (map (fun m => a n * a m + b n * b m) l))
             (fun n => Rsum (map (fun m => a n * a m) l) +
                       Rsum (map (fun m => b n * b m) l)))
    by (intros n _; apply Rsum_map_add).
  now rewrite Rsum_map_add, <- !Rsum_mult.
Qed.

(** A sum against the indicator of one index picks that term. *)
Lemma Rsum_delta (f : nat -> R) (N n : nat) :
  (n < N)%nat ->
  Rsum (map (fun m => if Nat.eqb n m then f m else 0) (seq 0 N)) = f n.
Proof.
  intros Hn.
  replace N with (n + (1 + (N - n - 1)))%nat by lia.
  rewrite !seq_app, !map_app, !Rsum_app. simpl seq at 2. simpl map at 2.
  simpl Rsum at 2. rewrite Nat.eqb_refl.
  rewrite !Rsum_map_zero; [lra | |].
  - intros m Hm. apply in_seq in Hm.
    destruct (Nat.eqb_spec n m); [lia | reflexivity].
  - intros m Hm. apply in_seq in Hm.
    destruct (Nat.eqb_spec n m); [lia | reflexivity].
Qed.

Lemma map_nth_seq (s : list R) :
  map (fun n => nth n s 0) (seq 0 (length s)) = s.
Proof. apply (take_seq 0 s). Qed.

Lemma Rsum_indices (f : R -> R) (s : list R) :
  Rsum (map (fun n => f (nth n s 0)) (seq 0 (length s))) = Rsum (map f s).
Proof.
  now rewrite <- (map_map (fun n => nth n s 0) f), map_nth_seq.
Qed.

(** ** Orthogonality of the roots of unity *)

Lemma suma_cos_telescopica (θ : R) (M : nat) :
  2 * sin (θ / 2) * Rsum (map (fun k => cos (INR k * θ)) (seq 0 M)) =
  sin ((INR M - 1 / 2) * θ) + sin (θ / 2).
Proof.
  induction M as [|M IH].
  - simpl. replace ((0 - 1 / 2) * θ) with (- (θ / 2)) by lra.
    rewrite sin_neg. lra.
  - rewrite seq_S, map_app, Rsum_app.
    change (Rsum (map (fun k => cos (INR k * θ)) [(0 + M)%nat]))
      with (cos (INR M * θ) + 0).
    rewrite Rmult_plus_distr_l, IH.
    replace ((INR (S M) - 1 / 2) * θ) with (INR M * θ + θ / 2)
      by (rewrite S_INR; lra).
    replace ((INR M - 1 / 2) * θ) with (INR M * θ - θ / 2) by lra.
    rewrite sin_plus, sin_minus. lra.
Qed.

Lemma suma_cos_cero (N d : nat) :
  (0 < d < N)%nat ->
  Rsum (map (fun k => cos (INR k * (2 * PI * INR d / INR N))) (seq 0 N)) = 0.
Proof.
  intros [Hd HdN]. set (θ := 2 * PI * INR d / INR N).
  assert (HN : 0 < INR N) by (apply lt_0_INR; lia).
  assert (Hd0 : 0 < INR d) by (apply lt_0_INR; lia).
  assert (HdN' : INR d < INR N) by now apply lt_INR.
  pose proof PI_RGT_0 as Hpi.
  assert (Hsin : 0 < sin (θ / 2)).
  { apply sin_gt_0; unfold θ.
    - apply Rdiv_lt_0_compat; [|lra].
      apply Rdiv_lt_0_compat; [|assumption]. nra.
    - replace (2 * PI * INR d / INR N / 2) with (PI * (INR d / INR N))
        by (field; lra).
      rewrite <- (Rmult_1_r PI) at 2. apply Rmult_lt_compat_l; [assumption|].
      apply Rmult_lt_reg_r with (INR N); [assumption|].
      unfold Rdiv. rewrite Rmult_assoc, Rinv_l by lra. lra. }
  pose proof (suma_cos_telescopica θ N) as H.
  replace ((INR N - 1 / 2) * θ) with (- (θ / 2) + 2 * INR d * PI) in H
    by (unfold θ; field; lra).
  rewrite sin_period, sin_neg in H.
  apply Rmult_eq_reg_l with (2 * sin (θ / 2)); [|lra].
  rewrite H. lra.
Qed.

Lemma ortogonalidad (N n m : nat) :
  (n < N)%nat -> (m < N)%nat ->
  Rsum (map (fun k => cos (2 * PI * INR k * INR n / INR N -
                           2 * PI * INR k * INR m / INR N)) (seq 0 N)) =
  if Nat.eqb n m then INR N else 0.
Proof.
  intros Hn Hm.
  assert (HN : INR N <> 0) by (apply not_0_INR; lia).
  destruct (Nat.eqb_spec n m) as [->|Hnm].
  - rewrite (Rsum_map_const 1).
    + rewrite length_seq. lra.
    + intros k _. rewrite Rminus_diag. apply cos_0.
  - destruct (Nat.lt_ge_cases m n) as [Hlt|Hge].
    + rewrite <- (suma_cos_cero N (n - m)) by lia.
      apply Rsum_ext. intros k _. f_equal.
      rewrite minus_INR by lia. field. assumption.
    + rewrite <- (suma_cos_cero N (m - n)) by lia.
      apply Rsum_ext. intros k _. rewrite <- cos_neg. f_equal.
      rewrite minus_INR by lia. field. assumption.
Qed.

(** ** Parseval's relation *)

Lemma Cmod_sq (z : C) : Cmod z ^ 2 = Re z * Re z + Im z * Im z.
Proof. unfold Cmod. apply pow2_sqrt. nra. Qed.

Lemma Cmod_sq_bin (s : list R) (dt : R) (k : nat) :
  (k < length s)%nat ->
  let N := length s in
  Cmod (nth k (espectro_sin_ordenar s dt) C0) ^ 2 =
  dt ^ 2 *
  Rsum (map (fun n =>
          Rsum (map (fun m =>
                  nth n s 0 * nth m s 0 *
                  cos (2 * PI * INR k * INR n / INR N -
                       2 * PI * INR k * INR m / INR N))
               (seq 0 N)))
       (seq 0 N)).
Proof.
  intros Hk N. rewrite Cmod_sq, espectro_sin_ordenar_partes by assumption.
  fold N. cbn [Re Im].
  set (a := fun n => nth n s 0 * cos (2 * PI * INR k * INR n / INR N)).
  set (b := fun n => nth n s 0 * sin (2 * PI * INR k * INR n / INR N)).
  transitivity
    (dt ^ 2 * (Rsum (map a (seq 0 N)) * Rsum (map a (seq 0 N)) +
               Rsum (map b (seq 0 N)) * Rsum (map b (seq 0 N)))); [ring|].
  f_equal. rewrite Rsum_cuadrados.
  apply Rsum_ext. intros n _. apply Rsum_ext. intros m _.
  unfold a, b. rewrite cos_minus. ring.
Qed.

Lemma suma_modulos_sin_ordenar (s : list R) (dt : R) :
  let N := length s in
  Rsum (map (fun k => Cmod (nth k (espectro_sin_ordenar s dt) C0) ^ 2)
            (seq 0 N)) =
  INR N * dt ^ 2 * Rsum (map (fun x => x * x) s).
Proof.
  intros N.
  set (F := fun k n m =>
              nth n s 0 * nth m s 0 *
              cos (2 * PI * INR k * INR n / INR N -
                   2 * PI * INR k * INR m / INR N)).
  transitivity
    (Rsum (map (fun k =>
             dt ^ 2 * Rsum (map (fun n => Rsum (map (F k n) (seq 0 N)))
                                (seq 0 N)))
          (seq 0 N))).
  { apply Rsum_ext. intros k Hk. apply in_seq in Hk.
    apply Cmod_sq_bin. fold N. lia. }
  rewrite Rsum_map_scale.
  rewrite (Rsum_swap (fun k n => Rsum (map (F k n) (seq 0 N)))).
  transitivity
    (dt ^ 2 * Rsum (map (fun n => nth n s 0 * nth n s 0 * INR N) (seq 0 N))).
  { f_equal. apply Rsum_ext. intros n Hn. apply in_seq in Hn.
    rewrite (Rsum_swap (fun k m => F k n m)).
    transitivity
      (Rsum (map (fun m => if Nat.eqb n m
                           then nth n s 0 * nth m s 0 * INR N else 0)
                 (seq 0 N))).
    - apply Rsum_ext. intros m Hm. apply in_seq in Hm. unfold F.
      rewrite Rsum_map_scale, ortogonalidad by lia.
      destruct (Nat.eqb n m); ring.
    - now rewrite (Rsum_delta (fun m => nth n s 0 * nth m s 0 * INR N))
        by lia. }
  rewrite <- (Rsum_indices (fun x => x * x) s). fold N.
  rewrite <- !Rsum_map_scale. apply Rsum_ext. intros n _. ring.
Qed.

(** The sorted spectrum has the bins of the unsorted one. *)
Lemma energia_espectro_ordenado (s : list R) (dt w : R) :
  s <> [] ->
  energia_espectro (snd (calcular_transformada_fourier s dt)) w =
  Rsum (map (fun k => Cmod (nth k (espectro_sin_ordenar s dt) C0) ^ 2 * w)
            (seq 0 (length s))).
Proof.
  intros Hs. apply length_pos_of_nonempty in Hs.
  unfold energia_espectro, calcular_transformada_fourier, Np.take; simpl.
  rewrite map_map. apply Rsum_perm. apply Permutation_map.
  rewrite <- (fftfreq_length (length s) dt) at 2 by assumption.
  apply argsort_perm.
Qed.

Lemma energia_tiempo_eq (s : list R) (dt : R) :
  energia_tiempo s dt = dt * Rsum (map (fun x => x * x) s).
Proof.
  unfold energia_tiempo. rewrite <- Rsum_map_scale.
  apply Rsum_ext. intros x _. rewrite pow2_abs. ring.
Qed.

(** Sum over the bins with an arbitrary weight. *)
Lemma parseval_peso (s : list R) (dt w : R) :
  s <> [] ->
  energia_espectro (snd (calcular_transformada_fourier s dt)) w =
  INR (length s) * dt ^ 2 * w * Rsum (map (fun x => x * x) s).
Proof.
  intros Hs. rewrite energia_espectro_ordenado by assumption.
  rewrite (Rsum_ext
             (fun k => Cmod (nth k (espectro_sin_ordenar s dt) C0) ^ 2 * w)
             (fun k => w * Cmod (nth k (espectro_sin_ordenar s dt) C0) ^ 2))
    by (intros; ring).
  rewrite Rsum_map_scale, suma_modulos_sin_ordenar. ring.
Qed.

(** C4 (as amended). Parseval's relation holds with the frequency
    resolution [df = 1/(N dt)] as the bin weight:
    [sum_k |spectrum[k]|^2 * df = sum_n |s[n]|^2 * dt]; with [dt] as the
    weight the sum is [N dt^2] times the time-domain energy. *)
Theorem parseval_df (señal : list R) (dt : R) :
  señal <> [] -> 0 < dt ->
  let espectro := snd (calcular_transformada_fourier señal dt) in
  let N := length señal in
  energia_espectro espectro (1 / (INR N * dt)) = energia_tiempo señal dt /\
  energia_espectro espectro dt = INR N * dt ^ 2 * energia_tiempo señal dt.
Proof.
  intros Hs Hdt espectro N. unfold espectro.
  rewrite !parseval_peso by assumption. fold N.
  rewrite energia_tiempo_eq.
  assert (HN : INR N <> 0).
  { apply not_0_INR. apply length_pos_of_nonempty in Hs. fold N in Hs. lia. }
  split; [field; split; lra | ring].
Qed.

Lemma parseval_df_witness :
  energia_espectro (snd (calcular_transformada_fourier [1; 2] (1 / 2)))
    (1 / (INR 2 * (1 / 2))) = energia_tiempo [1; 2] (1 / 2).
Proof.
  apply (parseval_df [1; 2] (1 / 2)); [discriminate | lra].
Defined.

(** C4 fails as stated: for the one-sample signal [1] with [dt = 2] the
    sum of [|spectrum|^2 * dt] is 8 while the time-domain energy is 2, so
    the two differ by more than the energy itself. *)
Lemma parseval_dt_falla :
  ~ (forall (s : list R) (dt : R),
        s <> [] -> 0 < dt ->
        Rabs (energia_espectro (snd (calcular_transformada_fourier s dt)) dt
              - energia_tiempo s dt) <= energia_tiempo s dt).
Proof.
  intros H. specialize (H [1] 2 ltac:(discriminate) ltac:(lra)).
  rewrite parseval_peso, energia_tiempo_eq in H by discriminate.
  simpl in H.
  replace (1 * 2 ^ 2 * 2 * (1 * 1 + 0) - 2 * (1 * 1 + 0)) with 6 in H
    by lra.
  rewrite Rabs_pos_eq in H; lra.
Qed.

(** ** The bin at frequency zero *)

Lemma bin_cero (s : list R) (dt : R) :
  s <> [] -> nth 0 (espectro_sin_ordenar s dt) C0 = mkC (dt * Rsum s) 0.
Proof.
  intros Hs. apply length_pos_of_nonempty in Hs.
  rewrite espectro_sin_ordenar_partes by assumption.
  assert (Hθ : forall n, 2 * PI * INR 0 * INR n / INR (length s) = 0)
    by (intros n; simpl; unfold Rdiv; ring).
  apply C_eq; cbn [Re Im].
  - f_equal.
    transitivity (Rsum (map (fun n => nth n s 0) (seq 0 (length s))));
      [|now rewrite map_nth_seq].
    apply Rsum_ext. intros n _. rewrite Hθ, cos_0. ring.
  - rewrite Rsum_map_zero; [ring|].
    intros n _. rewrite Hθ, sin_0. ring.
Qed.

Lemma Cmod_real (x : R) : 0 <= x -> Cmod (mkC x 0) = x.
Proof.
  intros Hx. unfold Cmod; simpl.
  replace (x * x + 0 * 0) with (x * x) by ring. now apply sqrt_square.
Qed.

(** The sorted output holds frequency zero at exactly the positions that
    carry bin 0, and there is such a position. *)
Lemma frecuencia_cero (s : list R) (dt : R) :
  s <> [] -> 0 < dt ->
  let F := fst (calcular_transformada_fourier s dt) in
  let E := snd (calcular_transformada_fourier s dt) in
  (exists p, (p < length F)%nat /\ nth p F 0 = 0) /\
  (forall p, (p < length F)%nat -> nth p F 0 = 0 ->
             nth p E C0 = mkC (dt * Rsum s) 0).
Proof.
  intros Hs Hdt F E.
  pose proof (length_pos_of_nonempty _ Hs) as HN.
  assert (HlenF : length F = length s)
    by now apply transformada_frecuencias_length.
  rewrite HlenF. split.
  - pose proof (argsort_perm (Np.fftfreq (length s) dt)) as Hperm.
    rewrite fftfreq_length in Hperm by assumption.
    assert (Hin : In 0%nat (Np.argsort (Np.fftfreq (length s) dt))).
    { apply (Permutation_in _ (Permutation_sym Hperm)). apply in_seq. lia. }
    destruct (In_nth _ _ 0%nat Hin) as (p & Hp & Hidx).
    rewrite argsort_length, fftfreq_length in Hp by assumption.
    exists p. split; [assumption|].
    destruct (transformada_nth s dt p Hs Hp) as (_ & HF & _).
    unfold F. rewrite HF, Hidx, fftfreq_nth by assumption.
    unfold bin_entero.
    replace (Nat.ltb (2 * 0) (length s)) with true
      by (symmetry; apply Nat.ltb_lt; lia).
    simpl. ring.
  - intros p Hp Hzero.
    destruct (transformada_nth s dt p Hs Hp) as (Hk & HF & HE).
    set (k := nth p (Np.argsort (Np.fftfreq (length s) dt)) 0%nat) in *.
    unfold F in Hzero. rewrite HF, fftfreq_nth in Hzero by assumption.
    assert (Hbin : bin_entero (length s) k = 0%Z).
    { apply eq_IZR. apply Rmult_integral in Hzero.
      destruct Hzero as [H|H]; [assumption|].
      pose proof (val_pos (length s) dt HN Hdt). lra. }
    assert (Hk0 : k = 0%nat).
    { unfold bin_entero in Hbin.
      destruct (Nat.ltb (2 * k) (length s)); lia. }
    unfold E. rewrite HE, Hk0. now apply bin_cero.
Qed.

(** ** Frequency scaling: the two interpolations *)

Lemma hd_nth {A} (d : A) (l : list A) : hd d l = nth 0 l d.
Proof. now destruct l. Qed.

Lemma last_nth {A} (d : A) (l : list A) : last l d = nth (length l - 1) l d.
Proof.
  induction l as [|x [|y l] IH]; try reflexivity.
  change (last (x :: y :: l) d) with (last (y :: l) d).
  rewrite IH. simpl. now rewrite Nat.sub_0_r.
Qed.

Lemma sorted_nth_lt (l : list R) (i j : nat) :
  StronglySorted Rlt l -> (i < j < length l)%nat -> nth i l 0 < nth j l 0.
Proof.
  intros Hs. revert i j.
  induction Hs as [|x l Hs IH Hall]; intros i j [Hij Hj]; simpl in Hj;
    [lia|].
  destruct j as [|j]; [lia|]. destruct i as [|i]; simpl.
  - rewrite Forall_forall in Hall. apply Hall. apply nth_In. lia.
  - apply IH. lia.
Qed.

Lemma vscale_nth (a : R) (l : list R) (j : nat) :
  (j < length l)%nat -> nth j (vscale a l) 0 = a * nth j l 0.
Proof. intros Hj. unfold vscale. now rewrite (nth_map_lt _ _ 0). Qed.

Lemma interp_some (x xp fp : list R) (left right : R) :
  xp <> [] -> length xp = length fp ->
  Np.interp x xp fp left right = Some (map (Np.interp1 xp fp left right) x).
Proof.
  intros Hxp Hlen. unfold Np.interp.
  destruct xp as [|a xp]; [congruence|]. cbn [length Nat.eqb].
  rewrite <- Hlen. cbn [length]. now rewrite Nat.eqb_refl.
Qed.

(** On a descending axis of two or more points every key is out of
    range: the fill value is returned everywhere. *)
Lemma interp1_descendente (xp fp : list R) (x : R) :
  (2 <= length xp)%nat -> last xp 0 < hd 0 xp ->
  Np.interp1 xp fp 0 0 x = 0.
Proof.
  intros Hlen Hdesc. unfold Np.interp1.
  replace (Nat.eqb (length xp) 1) with false
    by (symmetry; apply Nat.eqb_neq; lia).
  destruct (Rlt_dec (last xp 0) x); [reflexivity|].
  destruct (Rlt_dec x (hd 0 xp)); [reflexivity|]. lra.
Qed.

(** A strictly ascending axis times a negative factor is descending. *)
Lemma escala_negativa_descendente (a : R) (l : list R) :
  a < 0 -> StronglySorted Rlt l -> (2 <= length l)%nat ->
  last (vscale a l) 0 < hd 0 (vscale a l).
Proof.
  intros Ha Hs Hlen.
  rewrite hd_nth, last_nth, vscale_length, !vscale_nth by lia.
  pose proof (sorted_nth_lt l 0 (length l - 1) Hs ltac:(lia)). nra.
Qed.

Lemma verificar_escalamiento_frecuencia_eq
      (t s : list R) (dt a : R) (se it : list R) :
  let F := fst (calcular_transformada_fourier s dt) in
  let E := snd (calcular_transformada_fourier s dt) in
  Np.interp t (vscale a t) s 0 0 = Some se ->
  Np.interp F (vscale a F) (map Cmod E) 0 0 = Some it ->
  verificar_escalamiento_frecuencia t s dt a =
  Some (mkEscalamiento se F E
          (snd (calcular_transformada_fourier se dt))
          (vscale (1 / Rabs a) it)
          (Np.amax (map Rabs
                      (vsub (map Cmod
                               (snd (calcular_transformada_fourier se dt)))
                            (vscale (1 / Rabs a) it))))).
Proof.
  intros F E H1 H2. unfold verificar_escalamiento_frecuencia.
  rewrite H1. unfold F, E in *.
  destruct (calcular_transformada_fourier s dt) as [F' E'].
  cbn [fst snd] in *. now rewrite H2.
Qed.

(** The transform of an all-zero signal is zero at every bin. *)
Lemma transformada_de_ceros (s : list R) (dt : R) :
  s <> [] -> Forall (fun x => x = 0) s ->
  Forall (fun z => Cmod z = 0) (snd (calcular_transformada_fourier s dt)).
Proof.
  intros Hs Hz. pose proof (length_pos_of_nonempty _ Hs) as HN.
  unfold calcular_transformada_fourier, Np.take; cbn [snd].
  apply Forall_map. apply Forall_forall. intros k Hk.
  apply argsort_in_range in Hk. rewrite fftfreq_length in Hk by assumption.
  rewrite espectro_sin_ordenar_partes by assumption.
  assert (Hn : forall n, nth n s 0 = 0).
  { intros n. destruct (Nat.lt_ge_cases n (length s)) as [H|H].
    - rewrite Forall_forall in Hz. apply Hz. now apply nth_In.
    - now apply nth_overflow. }
  rewrite !Rsum_map_zero by (intros n _; rewrite Hn; ring).
  unfold Cmod; cbn [Re Im].
  replace (dt * 0 * (dt * 0) + - (dt * 0) * - (dt * 0)) with 0 by ring.
  apply sqrt_0.
Qed.

(** With a negative factor both scaled axes are descending, so both
    interpolations return the fill value everywhere: the scaled signal and
    the theoretical spectrum are zero and so is the printed error. *)
Lemma escalamiento_negativo (t s : list R) (dt a : R) :
  (2 <= length s)%nat -> length t = length s -> StronglySorted Rlt t ->
  0 < dt -> a < 0 ->
  exists r,
    verificar_escalamiento_frecuencia t s dt a = Some r /\
    esc_frecuencias r = fst (calcular_transformada_fourier s dt) /\
    esc_espectro r = snd (calcular_transformada_fourier s dt) /\
    Forall (fun x => x = 0) (esc_señal_escalada r) /\
    Forall (fun x => x = 0) (esc_espectro_teorico r) /\
    esc_error r = Some 0.
Proof.
  intros HN Hlen Ht Hdt Ha.
  assert (Hs : s <> []) by (intros ->; simpl in HN; lia).
  set (F := fst (calcular_transformada_fourier s dt)).
  set (E := snd (calcular_transformada_fourier s dt)).
  assert (HlenF : length F = length s)
    by now apply transformada_frecuencias_length.
  assert (HlenE : length E = length s)
    by now apply transformada_espectro_length.
  set (se := map (Np.interp1 (vscale a t) s 0 0) t).
  set (it := map (Np.interp1 (vscale a F) (map Cmod E) 0 0) F).
  assert (H1 : Np.interp t (vscale a t) s 0 0 = Some se).
  { apply interp_some; [|now rewrite vscale_length].
    intros Hnil. apply (f_equal (@length R)) in Hnil.
    rewrite vscale_length in Hnil. simpl in Hnil. lia. }
  assert (H2 : Np.interp F (vscale a F) (map Cmod E) 0 0 = Some it).
  { apply interp_some; [|rewrite vscale_length, length_map; lia].
    intros Hnil. apply (f_equal (@length R)) in Hnil.
    rewrite vscale_length in Hnil. simpl in Hnil. lia. }
  assert (Hse : Forall (fun x => x = 0) se).
  { apply Forall_map, Forall_forall. intros x _.
    apply interp1_descendente; [rewrite vscale_length; lia|].
    apply escala_negativa_descendente; [assumption | assumption | lia]. }
  assert (Hit : Forall (fun x => x = 0) (vscale (1 / Rabs a) it)).
  { unfold vscale at 1, it. rewrite map_map.
    apply Forall_map, Forall_forall. intros x _.
    rewrite interp1_descendente; [ring | rewrite vscale_length; lia |].
    apply escala_negativa_descendente; [assumption | | lia].
    now apply frecuencias_estrictas. }
  assert (Hsene : se <> []).
  { intros Hnil. apply (f_equal (@length R)) in Hnil.
    unfold se in Hnil. rewrite length_map in Hnil. simpl in Hnil. lia. }
  eexists. split; [apply verificar_escalamiento_frecuencia_eq; eassumption|].
  cbn [esc_frecuencias esc_espectro esc_señal_escalada esc_espectro_teorico
       esc_error].
  repeat split; try assumption.
  apply amax_zeros.
  - intros Hnil. apply (f_equal (@length R)) in Hnil.
    unfold vsub in Hnil.
    rewrite !length_map, length_combine, length_map,
      transformada_espectro_length, vscale_length in Hnil by assumption.
    unfold se, it in Hnil. rewrite !length_map in Hnil. simpl in Hnil. lia.
  - intros x Hx. apply in_map_iff in Hx. destruct Hx as (y & <- & Hy).
    unfold vsub in Hy. apply in_map_iff in Hy.
    destruct Hy as ([u v] & <- & Huv). cbn [fst snd].
    pose proof (in_combine_l _ _ _ _ Huv) as Hu.
    pose proof (in_combine_r _ _ _ _ Huv) as Hv.
    apply in_map_iff in Hu. destruct Hu as (z & <- & Hz).
    pose proof (transformada_de_ceros se dt Hsene Hse) as Hzero.
    rewrite Forall_forall in Hzero, Hit.
    rewrite (Hzero z Hz), (Hit v Hv), Rminus_diag. apply Rabs_R0.
Qed.

(** ** Frequency scaling with a positive factor *)

(** The search returns the segment that holds the key. *)
Lemma locate_spec (x : R) (xp : list R) :
  xp <> [] -> hd 0 xp <= x ->
  (Np.locate x xp < length xp)%nat /\
  nth (Np.locate x xp) xp 0 <= x /\
  ((S (Np.locate x xp) < length xp)%nat ->
   x < nth (S (Np.locate x xp)) xp 0).
Proof.
  induction xp as [|a [|b tl] IH]; intros Hne Hhd; [congruence| |].
  - simpl in *. repeat split; [lia | assumption | lia].
  - cbn [Np.locate]. destruct (Rlt_dec x b) as [Hlt|Hge].
    + simpl in *. repeat split; [lia | assumption | intros _; assumption].
    + destruct IH as (H1 & H2 & H3); [discriminate | simpl; lra |].
      repeat split.
      * simpl in *. lia.
      * exact H2.
      * intros H. apply H3. simpl in *. lia.
Qed.

(** On a strictly ascending axis [np.interp] is the linear interpolant. *)
Lemma interp1_creciente (xp fp : list R) (x : R) :
  xp <> [] -> StronglySorted Rlt xp ->
  interpolacion_lineal xp fp x (Np.interp1 xp fp 0 0 x).
Proof.
  intros Hne Hs. pose proof (length_pos_of_nonempty _ Hne) as Hlen.
  assert (Hfirst : forall j, (j < length xp)%nat -> hd 0 xp <= nth j xp 0).
  { intros j Hj. rewrite hd_nth. destruct j as [|j]; [lra|].
    apply Rlt_le, sorted_nth_lt; [assumption | lia]. }
  assert (Hlast : forall j, (j < length xp)%nat -> nth j xp 0 <= last xp 0).
  { intros j Hj. rewrite last_nth.
    destruct (Nat.eq_dec j (length xp - 1)) as [->|Hneq]; [lra|].
    apply Rlt_le, sorted_nth_lt; [assumption | lia]. }
  unfold Np.interp1.
  destruct (Nat.eqb_spec (length xp) 1) as [H1|H1].
  - destruct xp as [|a [|b tl]]; try discriminate. cbn [hd].
    destruct (Rlt_dec x a) as [Hxa|Hxa].
    + right; right. split; [|reflexivity]. left.
      intros [|j] Hj; simpl in *; [assumption | lia].
    + destruct (Rlt_dec a x) as [Hax|Hax].
      * right; right. split; [|reflexivity]. right.
        intros [|j] Hj; simpl in *; [assumption | lia].
      * left. exists 0%nat. simpl. repeat split; [lia | lra |].
        now destruct fp.
  - destruct (Rlt_dec (last xp 0) x) as [Hhi|Hhi].
    + right; right. split; [|reflexivity]. right.
      intros j Hj. specialize (Hlast j Hj). lra.
    + destruct (Rlt_dec x (hd 0 xp)) as [Hlo|Hlo].
      * right; right. split; [|reflexivity]. left.
        intros j Hj. specialize (Hfirst j Hj). lra.
      * destruct (locate_spec x xp Hne) as (Hj & Hle & Hnext); [lra|].
        set (j := Np.locate x xp) in *.
        destruct (Nat.eqb_spec j (length xp - 1)) as [Hjl|Hjl].
        -- left. exists j. repeat split; [assumption|].
           rewrite last_nth, <- Hjl in Hhi. lra.
        -- destruct (Req_dec_T (nth j xp 0) x) as [Heq|Hneq].
           ++ left. exists j. repeat split; [assumption | now symmetry].
           ++ right; left. exists j.
              split; [lia|]. split; [left; split; [lra | apply Hnext; lia]|].
              unfold Rdiv. ring.
Qed.

Lemma escala_positiva_creciente (a : R) (l : list R) :
  0 < a -> StronglySorted Rlt l -> StronglySorted Rlt (vscale a l).
Proof.
  intros Ha. induction 1 as [|x l Hs IH Hall]; simpl; constructor.
  - exact IH.
  - unfold vscale. apply Forall_map.
    eapply Forall_impl; [|exact Hall]. intros y Hy. simpl in Hy. nra.
Qed.

Lemma Forall2_map_r {A B} (P : A -> B -> Prop) (f : A -> B) (l : list A) :
  (forall x, P x (f x)) -> Forall2 P l (map f l).
Proof. intros H. induction l; simpl; constructor; auto. Qed.

(** With a positive factor the theoretical spectrum is [1/|a|] times the linear interpolation of the
    original magnitudes from the axis [a * f] onto the axis [f], zero
    outside, and the error is the largest absolute difference of
    magnitudes. *)
Lemma escalamiento_positivo (t s : list R) (dt a : R) :
  s <> [] -> length t = length s -> 0 < dt -> 0 < a ->
  let F := fst (calcular_transformada_fourier s dt) in
  let E := snd (calcular_transformada_fourier s dt) in
  exists r ys,
    verificar_escalamiento_frecuencia t s dt a = Some r /\
    Forall2 (interpolacion_lineal (vscale a F) (map Cmod E)) F ys /\
    esc_espectro_teorico r = vscale (1 / Rabs a) ys /\
    esc_espectro_escalado r =
      snd (calcular_transformada_fourier (esc_señal_escalada r) dt) /\
    esc_error r =
      Np.amax (map Rabs (vsub (map Cmod (esc_espectro_escalado r))
                              (esc_espectro_teorico r))).
Proof.
  intros Hs Hlen Hdt Ha F E.
  pose proof (length_pos_of_nonempty _ Hs) as HN.
  assert (HlenF : length F = length s)
    by now apply transformada_frecuencias_length.
  assert (HlenE : length E = length s)
    by now apply transformada_espectro_length.
  assert (HF : vscale a F <> []).
  { intros Hnil. apply (f_equal (@length R)) in Hnil.
    rewrite vscale_length in Hnil. simpl in Hnil. lia. }
  assert (H1 : Np.interp t (vscale a t) s 0 0 =
               Some (map (Np.interp1 (vscale a t) s 0 0) t)).
  { apply interp_some; [|now rewrite vscale_length].
    intros Hnil. apply (f_equal (@length R)) in Hnil.
    rewrite vscale_length in Hnil. simpl in Hnil. lia. }
  assert (H2 : Np.interp F (vscale a F) (map Cmod E) 0 0 =
               Some (map (Np.interp1 (vscale a F) (map Cmod E) 0 0) F)).
  { apply interp_some; [assumption|].
    rewrite vscale_length, length_map. lia. }
  eexists. exists (map (Np.interp1 (vscale a F) (map Cmod E) 0 0) F).
  split; [apply verificar_escalamiento_frecuencia_eq; eassumption|].
  cbn [esc_espectro_teorico esc_espectro_escalado esc_señal_escalada
       esc_error].
  repeat split.
  apply Forall2_map_r. intros x. apply interp1_creciente; [assumption|].
  apply escala_positiva_creciente; [assumption|].
  now apply frecuencias_estrictas.
Qed.

(** ** Frequency scaling at [factor = -1] on a two-sample signal *)

Lemma ejemplo_argsort : Np.argsort (Np.fftfreq 2 1) = [1; 0]%nat.
Proof.
  rewrite fftfreq_bins by lia. cbn [seq map].
  change (bin_entero 2 0) with 0%Z. change (bin_entero 2 1) with (-1)%Z.
  unfold Np.argsort. cbn [length seq fold_right Np.insert_idx nth].
  destruct (Rle_dec _ _) as [H|H]; [|reflexivity].
  exfalso. simpl in H. lra.
Qed.

Lemma ejemplo_transformada :
  exists f0 f1 e0 e1,
    calcular_transformada_fourier [1; 1] 1 = ([f0; f1], [e0; e1]) /\
    f0 = - (1 / 2) /\ f1 = 0 /\ Cmod e1 = 2.
Proof.
  unfold calcular_transformada_fourier. cbn [length].
  rewrite ejemplo_argsort. unfold Np.take. cbn [map].
  do 4 eexists. split; [reflexivity|].
  rewrite !fftfreq_nth by lia.
  change (bin_entero 2 0) with 0%Z. change (bin_entero 2 1) with (-1)%Z.
  rewrite bin_cero by discriminate.
  split; [simpl; lra|]. split; [simpl; lra|].
  simpl. rewrite Cmod_real; lra.
Qed.

(** C8 at a negative factor. For the grid [0, 1], the signal [1, 1],
    [dt = 1] and [factor = -1] the original spectrum has magnitude 2 at
    frequency 0, which is a point of the scaled axis ([0 * -1 = 0]); the
    verifier's theoretical value there is 0, which is not the value of the
    linear interpolant, the scaled signal is all zero and the printed
    error is 0. *)
Theorem escalamiento_factor_negativo :
  exists r,
    verificar_escalamiento_frecuencia [0; 1] [1; 1] 1 (-1) = Some r /\
    nth 1 (esc_frecuencias r) 0 = 0 /\
    Cmod (nth 1 (esc_espectro r) C0) = 2 /\
    nth 1 (esc_espectro_teorico r) 0 = 0 /\
    esc_señal_escalada r = [0; 0] /\
    esc_error r = Some 0 /\
    ~ interpolacion_lineal (vscale (-1) (esc_frecuencias r))
                           (map Cmod (esc_espectro r)) 0 0.
Proof.
  assert (Ht : StronglySorted Rlt [0; 1]).
  { repeat constructor. lra. }
  destruct (escalamiento_negativo [0; 1] [1; 1] 1 (-1))
    as (r & Hr & HF & HE & Hse & Hteo & Herr);
    [simpl; lia | reflexivity | exact Ht | lra | lra |].
  destruct ejemplo_transformada
    as (f0 & f1 & e0 & e1 & Hcalc & Hf0 & Hf1 & He1).
  rewrite Hcalc in HF, HE. cbn [fst snd] in HF, HE.
  exists r. rewrite HF, HE. cbn [nth map vscale].
  split; [exact Hr|]. split; [exact Hf1|]. split; [exact He1|].
  split; [|split; [|split; [exact Herr|]]].
  - rewrite Forall_forall in Hteo.
    destruct (Nat.lt_ge_cases 1 (length (esc_espectro_teorico r))) as [H|H].
    + apply Hteo. now apply nth_In.
    + now apply nth_overflow.
  - assert (Hlen : length (esc_señal_escalada r) = 2%nat).
    { unfold verificar_escalamiento_frecuencia in Hr.
      rewrite (interp_some [0; 1] (vscale (-1) [0; 1]) [1; 1] 0 0) in Hr
        by (simpl; congruence).
      destruct (calcular_transformada_fourier [1; 1] 1) as [F' E'].
      destruct (Np.interp F' (vscale (-1) F') (map Cmod E') 0 0);
        [|discriminate].
      injection Hr as <-. reflexivity. }
    destruct (esc_señal_escalada r) as [|x [|y [|z l]]]; try discriminate.
    inversion Hse as [|? ? Hx Hse']; subst.
    inversion Hse' as [|? ? Hy _]; subst. reflexivity.
  - unfold interpolacion_lineal. cbn [length nth].
    intros [(j & Hj & Hx & Hy) | [(j & Hj & Hx & _) | [[H|H] _]]].
    + destruct j as [|[|j]]; cbn [nth] in Hx, Hy; [lra | lra | lia].
    + destruct j as [|j]; [|lia]. cbn [nth] in Hx. lra.
    + specialize (H 1%nat ltac:(lia)). cbn [nth] in H. lra.
    + specialize (H 1%nat ltac:(lia)). cbn [nth] in H. lra.
Qed.

(** * Further properties of the program *)

(** ** The step and the sinusoid *)

Lemma generar_escalon_map (t : list R) (A t0 : R) :
  generar_escalon t A t0 = map (fun τ => if Rgeb τ t0 then A else 0) t.
Proof.
  unfold generar_escalon, Np.mask_assign, Np.zeros_like.
  induction t as [|τ t IH]; simpl; [reflexivity|]. now rewrite IH.
Qed.

(** The step has the length of the grid; a sample at or after the onset
    gets the amplitude (the onset itself included), an earlier one 0. *)
Theorem escalon_valores (t : list R) (A t0 : R) :
  length (generar_escalon t A t0) = length t /\
  (forall i, (i < length t)%nat ->
     (t0 <= nth i t 0 -> nth i (generar_escalon t A t0) 0 = A) /\
     (nth i t 0 < t0 -> nth i (generar_escalon t A t0) 0 = 0)).
Proof.
  rewrite generar_escalon_map. split; [apply length_map|].
  intros i Hi. rewrite (nth_map_lt _ _ 0) by assumption. unfold Rgeb.
  split; intros H.
  - apply Rleb_true in H. now rewrite H.
  - apply Rleb_false in H. now rewrite H.
Qed.

Lemma escalon_valores_witness :
  nth 1 (generar_escalon [-1; 0; 1] 4 0) 0 = 4 /\
  nth 0 (generar_escalon [-1; 0; 1] 4 0) 0 = 0.
Proof.
  destruct (escalon_valores [-1; 0; 1] 4 0) as [_ H]. split.
  - apply (H 1%nat); simpl; [lia | lra].
  - apply (H 0%nat); simpl; [lia | lra].
Defined.

(** On a non-decreasing grid the step is a run of zeros followed by a run
    of amplitudes: once on, it stays on. *)
Theorem escalon_un_solo_salto (t : list R) (A t0 : R) :
  StronglySorted Rle t ->
  exists k, (k <= length t)%nat /\
    generar_escalon t A t0 = repeat 0 k ++ repeat A (length t - k).
Proof.
  intros Hs. rewrite generar_escalon_map.
  induction Hs as [|τ t Hs IH Hall].
  - exists 0%nat. split; [simpl; lia | reflexivity].
  - destruct (Rle_dec t0 τ) as [Hon|Hoff].
    + exists 0%nat. split; [simpl; lia|].
      cbn [app repeat]. rewrite Nat.sub_0_r.
      rewrite <- (length_map (fun τ => if Rgeb τ t0 then A else 0)).
      apply Forall_eq_repeat. apply Forall_map. constructor.
      * unfold Rgeb. apply Rleb_true in Hon. now rewrite Hon.
      * eapply Forall_impl; [|exact Hall]. intros x Hx. simpl in Hx.
        unfold Rgeb. replace (Rleb t0 x) with true; [reflexivity|].
        symmetry. apply Rleb_true. lra.
    + destruct IH as (k & Hk & IH). exists (S k). split; [simpl; lia|].
      cbn [map length repeat app Nat.sub]. rewrite IH. f_equal.
      unfold Rgeb. replace (Rleb t0 τ) with false; [reflexivity|].
      symmetry. apply Rleb_false. lra.
Qed.

Lemma escalon_un_solo_salto_witness :
  exists k, (k <= 3)%nat /\
    generar_escalon [-1; 0; 1] 4 0 = repeat 0 k ++ repeat 4 (3 - k).
Proof.
  apply (escalon_un_solo_salto [-1; 0; 1] 4 0).
  repeat constructor; lra.
Defined.

(** The sinusoid has the length of the grid, stays within
    [-|amplitud|, |amplitud|], and does not change when the grid is moved
    by a whole number of periods [1/frecuencia] or the phase by a whole
    number of turns. *)
Theorem senoidal_acotada_y_periodica (t : list R) (f A φ : R) (k : Z) :
  length (generar_senoidal t f A φ) = length t /\
  Forall (fun x => Rabs x <= Rabs A) (generar_senoidal t f A φ) /\
  (f <> 0 ->
   generar_senoidal (map (fun τ => τ + IZR k / f) t) f A φ =
   generar_senoidal t f A φ) /\
  generar_senoidal t f A (φ + 2 * IZR k * PI) = generar_senoidal t f A φ.
Proof.
  unfold generar_senoidal. split; [apply length_map|]. split; [|split].
  - apply Forall_map, Forall_forall. intros τ _.
    rewrite Rabs_mult. rewrite <- (Rmult_1_r (Rabs A)) at 2.
    apply Rmult_le_compat_l; [apply Rabs_pos|].
    apply Rabs_le. pose proof (SIN_bound (2 * PI * f * τ + φ)). lra.
  - intros Hf. rewrite map_map. apply map_ext. intros τ. f_equal.
    replace (2 * PI * f * (τ + IZR k / f) + φ)
      with (2 * PI * f * τ + φ + 2 * IZR k * PI) by (field; assumption).
    apply sin_period_Z.
  - apply map_ext. intros τ. f_equal.
    rewrite <- Rplus_assoc. apply sin_period_Z.
Qed.

Lemma senoidal_acotada_y_periodica_witness :
  generar_senoidal (map (fun τ => τ + IZR 3 / 2) [0; 1 / 8]) 2 1 0 =
  generar_senoidal [0; 1 / 8] 2 1 0.
Proof.
  apply (senoidal_acotada_y_periodica [0; 1 / 8] 2 1 0 3). lra.
Defined.

(** ** The frequency axis lies in the Nyquist band *)

Lemma bin_entero_rango (N k : nat) :
  (k < N)%nat ->
  (- Z.of_nat N <= 2 * bin_entero N k < Z.of_nat N)%Z.
Proof.
  intros Hk. unfold bin_entero.
  destruct (Nat.ltb_spec (2 * k) N); lia.
Qed.

(** Every returned frequency [f] satisfies [-1/(2 dt) <= f < 1/(2 dt)]. *)
Theorem frecuencias_en_banda (señal : list R) (dt : R) :
  señal <> [] -> 0 < dt ->
  Forall (fun f => - (1 / (2 * dt)) <= f < 1 / (2 * dt))
         (fst (calcular_transformada_fourier señal dt)).
Proof.
  intros Hs Hdt. pose proof (length_pos_of_nonempty _ Hs) as HN.
  unfold calcular_transformada_fourier, Np.take; cbn [fst].
  apply Forall_map, Forall_forall. intros k Hk.
  apply argsort_in_range in Hk. rewrite fftfreq_length in Hk by assumption.
  rewrite fftfreq_nth by assumption.
  pose proof (bin_entero_rango _ _ Hk) as [Hlo Hhi].
  apply IZR_le in Hlo. apply IZR_lt in Hhi.
  rewrite opp_IZR, <- INR_IZR_INZ in Hlo.
  rewrite mult_IZR in Hlo, Hhi. rewrite <- INR_IZR_INZ in Hhi.
  pose proof (val_pos _ _ HN Hdt) as Hv.
  set (v := 1 / (INR (length señal) * dt)) in *.
  assert (HNr : 0 < INR (length señal)) by (apply lt_0_INR; lia).
  replace (1 / (2 * dt)) with (INR (length señal) / 2 * v)
    by (unfold v; field; split; lra).
  split; nra.
Qed.

Lemma frecuencias_en_banda_witness :
  Forall (fun f => - (1 / (2 * (1 / 4))) <= f < 1 / (2 * (1 / 4)))
         (fst (calcular_transformada_fourier [1; 2; 3] (1 / 4))).
Proof.
  apply (frecuencias_en_banda [1; 2; 3] (1 / 4)); [discriminate | lra].
Defined.

(** ** A circular shift changes phases only *)

Lemma Cmod_mul (z w : C) : Cmod (Cmul z w) = Cmod z * Cmod w.
Proof.
  unfold Cmod; simpl. rewrite <- sqrt_mult by nra. f_equal. ring.
Qed.

Lemma Cmod_omega (N : nat) (j : Z) : Cmod (omega N j) = 1.
Proof.
  rewrite omega_partes. unfold Cmod; simpl.
  set (x := 2 * PI * IZR j / INR N).
  replace (cos x * cos x + - sin x * - sin x)
    with (Rsqr (sin x) + Rsqr (cos x)) by (unfold Rsqr; ring).
  rewrite sin2_cos2. apply sqrt_1.
Qed.

Lemma espectro_sin_ordenar_roll (s : list R) (dt : R) (m : Z) (k : nat) :
  (k < length s)%nat ->
  nth k (espectro_sin_ordenar (Np.roll s m) dt) C0 =
  Cmul (omega (length s) (Z.of_nat k * m))
       (nth k (espectro_sin_ordenar s dt) C0).
Proof.
  intros Hk.
  rewrite !espectro_sin_ordenar_nth by (rewrite ?roll_length; assumption).
  rewrite fft_roll by assumption. C_ring.
Qed.

Lemma transformada_roll_magnitud (s : list R) (dt : R) (m : Z) :
  s <> [] ->
  map Cmod (snd (calcular_transformada_fourier (Np.roll s m) dt)) =
  map Cmod (snd (calcular_transformada_fourier s dt)).
Proof.
  intros Hs. pose proof (length_pos_of_nonempty _ Hs) as HN.
  unfold calcular_transformada_fourier, Np.take; cbn [snd].
  rewrite roll_length, !map_map. apply map_ext_in. intros k Hk.
  apply argsort_in_range in Hk. rewrite fftfreq_length in Hk by assumption.
  rewrite espectro_sin_ordenar_roll by assumption.
  rewrite Cmod_mul, Cmod_omega. ring.
Qed.

(** On a non-empty signal and a step [dt <> 0], whatever number [m] of
    samples the time-shift verifier shifts by: the shifted signal is
    [np.roll] of the signal by [m], the shifted spectrum is the transform
    of that shifted signal, it has as many bins as the signal has samples,
    and bin by bin it has the magnitudes of the spectrum of the original
    signal.  The verifier run on the exact quotient is the case
    [m = int(t0/dt)]. *)
Theorem desplazamiento_conserva_magnitud
        (t señal : list R) (dt t0 : R) (m : Z) :
  señal <> [] -> dt <> 0 ->
  let r := verificar_desplazamiento_con m t señal dt t0 in
  des_señal_desplazada r = Np.roll señal m /\
  des_espectro_desplazado r =
    snd (calcular_transformada_fourier (Np.roll señal m) dt) /\
  length (des_espectro_desplazado r) = length señal /\
  map Cmod (des_espectro_desplazado r) =
    map Cmod (snd (calcular_transformada_fourier señal dt)) /\
  (m = int_of_float (t0 / dt) ->
   verificar_desplazamiento_tiempo t señal dt t0 = r).
Proof.
  intros Hs Hdt r. unfold r. rewrite verificar_desplazamiento_con_eq.
  cbv zeta. cbn [des_señal_desplazada des_espectro_desplazado].
  split; [reflexivity|]. split; [reflexivity|]. split; [|split].
  - rewrite transformada_espectro_length; [apply roll_length|].
    intros Hr. apply (f_equal (@length R)) in Hr.
    rewrite roll_length in Hr. apply length_pos_of_nonempty in Hs.
    simpl in Hr. lia.
  - now apply transformada_roll_magnitud.
  - intros ->. rewrite verificar_desplazamiento_tiempo_con.
    now rewrite verificar_desplazamiento_con_eq.
Qed.

Lemma desplazamiento_conserva_magnitud_witness :
  map Cmod (des_espectro_desplazado
              (verificar_desplazamiento_con 2 [0; 1; 2] [1; 2; 4] 1 (7 / 3))) =
  map Cmod (snd (calcular_transformada_fourier [1; 2; 4] 1)).
Proof.
  destruct (desplazamiento_conserva_magnitud
              [0; 1; 2] [1; 2; 4] 1 (7 / 3) 2) as (_ & _ & _ & H & _).
  - discriminate.
  - lra.
  - exact H.
Defined.

(** ** Shifts compose, undo each other and wrap around *)

Lemma roll_compose (s : list R) (a b : Z) :
  Np.roll (Np.roll s a) b = Np.roll s (a + b).
Proof.
  apply (nth_ext _ _ 0 0); [now rewrite !roll_length|].
  intros i Hi. rewrite !roll_length in Hi.
  assert (HN : (0 < Z.of_nat (length s))%Z) by lia.
  pose proof (Z.mod_pos_bound (Z.of_nat i - b) _ HN) as Hb.
  rewrite roll_nth by (rewrite roll_length; assumption).
  rewrite roll_length.
  rewrite roll_nth by lia. rewrite roll_nth by assumption.
  f_equal. f_equal. rewrite Z2Nat.id by lia.
  rewrite Zminus_mod_idemp_l. f_equal. lia.
Qed.

Lemma roll_multiplo (s : list R) (k : Z) :
  Np.roll s (k * Z.of_nat (length s)) = s.
Proof.
  apply (nth_ext _ _ 0 0); [apply roll_length|].
  intros i Hi. rewrite roll_length in Hi. rewrite roll_nth by assumption.
  f_equal.
  replace (Z.of_nat i - k * Z.of_nat (length s))%Z
    with (Z.of_nat i + (- k) * Z.of_nat (length s))%Z by ring.
  rewrite Z.mod_add by lia. rewrite Z.mod_small by lia. lia.
Qed.

Lemma roll_cero (s : list R) : Np.roll s 0 = s.
Proof. apply (roll_multiplo s 0). Qed.

Lemma int_of_float_opp (x : R) : int_of_float (- x) = (- int_of_float x)%Z.
Proof.
  unfold int_of_float.
  destruct (Rle_dec 0 x) as [Hx|Hx], (Rle_dec 0 (- x)) as [Hn|Hn].
  - assert (x = 0) as -> by lra. rewrite Ropp_0.
    change 0 with (IZR 0). now rewrite Int_part_IZR.
  - now rewrite Ropp_involutive.
  - lia.
  - lra.
Qed.

(** For a non-empty signal and a step [dt <> 0]: shifting by [t0] and
    then shifting the result by [-t0] gives the signal back, for every
    [t0]; and so does shifting by any number [m] of samples and then by
    [-m]. *)
Theorem desplazamiento_ida_y_vuelta
        (t t' señal : list R) (dt t0 : R) (m : Z) :
  señal <> [] -> dt <> 0 ->
  des_señal_desplazada
    (verificar_desplazamiento_tiempo t'
       (des_señal_desplazada
          (verificar_desplazamiento_tiempo t señal dt t0))
       dt (- t0)) = señal /\
  des_señal_desplazada
    (verificar_desplazamiento_con (- m) t'
       (des_señal_desplazada
          (verificar_desplazamiento_con m t señal dt t0))
       dt (- t0)) = señal.
Proof.
  intros _ _. split.
  - rewrite !des_señal_desplazada_eq.
    replace (- t0 / dt) with (- (t0 / dt)) by (unfold Rdiv; ring).
    rewrite int_of_float_opp, roll_compose, Z.add_opp_diag_r.
    apply roll_cero.
  - rewrite !verificar_desplazamiento_con_eq. cbv zeta.
    cbn [des_señal_desplazada].
    rewrite roll_compose, Z.add_opp_diag_r. apply roll_cero.
Qed.

Lemma desplazamiento_ida_y_vuelta_witness :
  des_señal_desplazada
    (verificar_desplazamiento_tiempo [0; 1; 2]
       (des_señal_desplazada
          (verificar_desplazamiento_tiempo [0; 1; 2] [5; 7; 9] (1 / 2) 1))
       (1 / 2) (- 1)) = [5; 7; 9].
Proof.
  apply (desplazamiento_ida_y_vuelta
           [0; 1; 2] [0; 1; 2] [5; 7; 9] (1 / 2) 1 2);
    [discriminate | lra].
Defined.

(** When the number of samples the program computes on its doubles,
    [int(desplazamiento/dt)], is a whole number of windows ([k * N]), the
    shifted signal is the signal itself: the shift wraps around. *)
Theorem desplazamiento_ventana_completa
        (señal : list R) (desplazamiento dt : PrimFloat.float) (k : Z) :
  Doble.muestras desplazamiento dt = Some (k * Z.of_nat (length señal))%Z ->
  Doble.señal_desplazada señal desplazamiento dt = Some señal.
Proof.
  intros Hm. unfold Doble.señal_desplazada. rewrite Hm.
  now rewrite roll_multiplo.
Qed.

Lemma desplazamiento_ventana_completa_witness :
  Doble.señal_desplazada [5; 7; 9] Doble.tres Doble.un_medio =
  Some [5; 7; 9].
Proof.
  apply (desplazamiento_ventana_completa [5; 7; 9] _ _ 2).
  vm_compute. reflexivity.
Defined.



(** ** The sorted order written out *)

Section OrdenUnico.
Variable A : Type.
Variable R : A -> A -> Prop.
Hypothesis R_asym : forall x y, R x y -> R y x -> False.

(** A strictly sorted arrangement of given elements is unique. *)
Lemma sorted_perm_unique (l1 l2 : list A) :
  StronglySorted R l1 -> StronglySorted R l2 -> Permutation l1 l2 ->
  l1 = l2.
Proof.
  intros H1. revert l2.
  induction H1 as [|a l1 Hs1 IH Ha]; intros l2 H2 Hp.
  - apply Permutation_nil in Hp. now subst.
  - destruct H2 as [|b l2 Hs2 Hb].
    + apply Permutation_sym, Permutation_nil in Hp. discriminate.
    + assert (Hab : a = b).
      { assert (Hina : In a (b :: l2))
          by (apply (Permutation_in _ Hp); now left).
        assert (Hinb : In b (a :: l1))
          by (apply (Permutation_in _ (Permutation_sym Hp)); now left).
        destruct Hina as [E|Hina]; [now symmetry|].
        destruct Hinb as [E|Hinb]; [assumption|].
        rewrite Forall_forall in Ha, Hb.
        exfalso. apply (R_asym a b); [now apply Ha | now apply Hb]. }
      subst b. f_equal. apply IH; [assumption|].
      now apply Permutation_cons_inv in Hp.
Qed.

Lemma StronglySorted_app (l1 l2 : list A) :
  StronglySorted R l1 -> StronglySorted R l2 ->
  (forall x y, In x l1 -> In y l2 -> R x y) ->
  StronglySorted R (l1 ++ l2).
Proof.
  intros H1 H2 H12. induction H1 as [|a l1 Hs IH Ha]; simpl; [assumption|].
  constructor.
  - apply IH. intros x y Hx Hy. apply H12; [now right | assumption].
  - apply Forall_app. split; [assumption|].
    apply Forall_forall. intros y Hy. apply H12; [now left | assumption].
Qed.
End OrdenUnico.

Lemma StronglySorted_seq (R : nat -> nat -> Prop) (a n : nat) :
  (forall i j, (a <= i < j)%nat -> (j < a + n)%nat -> R i j) ->
  StronglySorted R (seq a n).
Proof.
  revert a. induction n as [|n IH]; intros a H; simpl; constructor.
  - apply IH. intros i j Hij Hj. apply H; lia.
  - apply Forall_forall. intros j Hj. apply in_seq in Hj. apply H; lia.
Qed.

Lemma StronglySorted_map_inv (key : nat -> R) (l : list nat) :
  StronglySorted Rlt (map key l) ->
  StronglySorted (fun i j => key i < key j) l.
Proof.
  induction l as [|i l IH]; intros H; [constructor|].
  inversion H as [|? ? Hs Hall]; subst. constructor; [now apply IH|].
  apply Forall_forall. intros j Hj. rewrite Forall_forall in Hall.
  apply Hall. now apply in_map.
Qed.

(** The sorting permutation of the frequency axis: the upper half of the
    bins (negative frequencies) first, then the lower half. *)
Lemma argsort_fftfreq (N : nat) (dt : R) :
  (0 < N)%nat -> 0 < dt ->
  Np.argsort (Np.fftfreq N dt) =
  seq (N - N / 2) (N / 2) ++ seq 0 (N - N / 2).
Proof.
  intros HN Hdt. set (h := (N - N / 2)%nat).
  pose proof (Nat.div_mod_eq N 2) as Hdm.
  pose proof (Nat.mod_upper_bound N 2 ltac:(lia)) as Hmod.
  assert (Hh : (h + N / 2 = N)%nat) by (unfold h; lia).
  set (key := fun i => nth i (Np.fftfreq N dt) 0).
  pose proof (val_pos N dt HN Hdt) as Hv.
  assert (Hkey : forall i j, (i < N)%nat -> (j < N)%nat ->
            (bin_entero N i < bin_entero N j)%Z -> key i < key j).
  { intros i j Hi Hj Hb. unfold key. rewrite !fftfreq_nth by assumption.
    apply Rmult_lt_compat_r; [assumption | now apply IZR_lt]. }
  apply (sorted_perm_unique nat (fun i j => key i < key j)).
  - intros x y; lra.
  - apply StronglySorted_map_inv. apply sorted_nodup_strict.
    + intros i j Hi Hj. apply argsort_in_range in Hi, Hj.
      rewrite fftfreq_length in Hi, Hj by assumption.
      now apply fftfreq_inj.
    + apply (Permutation_NoDup (Permutation_sym (argsort_perm _))).
      apply seq_NoDup.
    + apply argsort_sorted.
  - apply StronglySorted_app.
    + apply StronglySorted_seq. intros i j Hij Hj. apply Hkey; try lia.
      unfold bin_entero.
      destruct (Nat.ltb_spec (2 * i) N), (Nat.ltb_spec (2 * j) N); lia.
    + apply StronglySorted_seq. intros i j Hij Hj. apply Hkey; try lia.
      unfold bin_entero.
      destruct (Nat.ltb_spec (2 * i) N), (Nat.ltb_spec (2 * j) N); lia.
    + intros x y Hx Hy. apply in_seq in Hx, Hy. apply Hkey; try lia.
      unfold bin_entero.
      destruct (Nat.ltb_spec (2 * x) N), (Nat.ltb_spec (2 * y) N); lia.
  - eapply perm_trans; [apply argsort_perm|].
    rewrite fftfreq_length by assumption.
    rewrite <- Hh at 1. rewrite seq_app. apply Permutation_app_comm.
Qed.

Lemma take_seq_rango {A} (d : A) (l : list A) (a n : nat) :
  (a + n <= length l)%nat ->
  Np.take d l (seq a n) = firstn n (skipn a l).
Proof.
  intros H. unfold Np.take. apply (nth_ext _ _ d d).
  - rewrite length_map, length_seq, length_firstn, length_skipn. lia.
  - intros i Hi. rewrite length_map, length_seq in Hi.
    rewrite (nth_map_lt _ _ 0%nat) by now rewrite length_seq.
    rewrite seq_nth by assumption.
    rewrite nth_firstn.
    replace (i <? n)%nat with true by (symmetry; apply Nat.ltb_lt; lia).
    now rewrite nth_skipn.
Qed.

(** The returned axis, position by position. *)
Lemma frecuencias_centradas (s : list R) (dt : R) :
  s <> [] -> 0 < dt ->
  let N := length s in
  fst (calcular_transformada_fourier s dt) =
    map (fun p => (INR p - INR (N / 2)) / (INR N * dt)) (seq 0 N).
Proof.
  intros Hs Hdt N. pose proof (length_pos_of_nonempty _ Hs) as HN.
  fold N in HN.
  pose proof (Nat.div_mod_eq N 2) as Hdm.
  pose proof (Nat.mod_upper_bound N 2 ltac:(lia)) as Hmod.
  unfold calcular_transformada_fourier. fold N. cbn [fst].
  rewrite argsort_fftfreq by assumption.
  unfold Np.take. rewrite map_app.
  replace (seq 0 N) with (seq 0 (N / 2) ++ seq (0 + N / 2) (N - N / 2))
    by (rewrite <- seq_app; f_equal; lia).
  rewrite map_app. f_equal.
  - apply map_seq_shift_ext. intros i Hi.
    rewrite fftfreq_nth by lia. unfold bin_entero.
    destruct (Nat.ltb_spec (2 * (N - N / 2 + i)) N) as [H|H]; [lia|].
    cbn [Nat.add].
    rewrite minus_IZR, <- !INR_IZR_INZ, plus_INR, minus_INR by lia.
    unfold Rdiv. ring.
  - apply map_seq_shift_ext. intros i Hi.
    rewrite fftfreq_nth by lia. unfold bin_entero.
    destruct (Nat.ltb_spec (2 * (0 + i)) N) as [H|H]; [|lia].
    cbn [Nat.add].
    rewrite <- !INR_IZR_INZ, plus_INR. unfold Rdiv. ring.
Qed.

(** The output is the centred rearrangement of the unsorted transform:
    the frequency axis is [(p - N//2) / (N dt)] for [p = 0 .. N-1], evenly
    spaced by [1/(N dt)], and the spectrum is the unsorted one with its
    last [N//2] bins moved to the front. *)
Theorem transformada_centrada (señal : list R) (dt : R) :
  señal <> [] -> 0 < dt ->
  let N := length señal in
  fst (calcular_transformada_fourier señal dt) =
    map (fun p => (INR p - INR (N / 2)) / (INR N * dt)) (seq 0 N) /\
  snd (calcular_transformada_fourier señal dt) =
    skipn (N - N / 2) (espectro_sin_ordenar señal dt) ++
    firstn (N - N / 2) (espectro_sin_ordenar señal dt).
Proof.
  intros Hs Hdt N. split; [now apply frecuencias_centradas|].
  pose proof (length_pos_of_nonempty _ Hs) as HN. fold N in HN.
  pose proof (Nat.div_mod_eq N 2) as Hdm.
  pose proof (Nat.mod_upper_bound N 2 ltac:(lia)) as Hmod.
  unfold calcular_transformada_fourier. fold N. cbn [snd].
  rewrite argsort_fftfreq by assumption.
  unfold Np.take at 1. rewrite map_app.
  fold (Np.take C0 (espectro_sin_ordenar señal dt) (seq (N - N / 2) (N / 2))).
  fold (Np.take C0 (espectro_sin_ordenar señal dt) (seq 0 (N - N / 2))).
  rewrite !take_seq_rango
    by (rewrite espectro_sin_ordenar_length; fold N; lia).
  f_equal.
  apply firstn_all2. rewrite length_skipn, espectro_sin_ordenar_length.
  fold N. lia.
Qed.

Lemma transformada_centrada_witness :
  fst (calcular_transformada_fourier [1; 2; 3] (1 / 2)) =
  map (fun p => (INR p - INR (3 / 2)) / (INR 3 * (1 / 2))) (seq 0 3).
Proof.
  apply (transformada_centrada [1; 2; 3] (1 / 2)); [discriminate | lra].
Defined.

(** ** Symmetry of the spectrum of a real signal *)

Lemma Cmod_conj (z : C) : Cmod (Cconj z) = Cmod z.
Proof. unfold Cmod, Cconj; simpl. f_equal. ring. Qed.

Lemma Cconj_Csum {A} (f : A -> C) (l : list A) :
  Cconj (Csum (map f l)) = Csum (map (fun x => Cconj (f x)) l).
Proof.
  induction l as [|x l IH]; simpl; [C_ring|]. rewrite <- IH. C_ring.
Qed.

Lemma omega_opp (N : nat) (j : Z) : Cconj (omega N j) = omega N (- j).
Proof.
  rewrite !omega_partes. unfold Cconj; cbn [Re Im]. rewrite opp_IZR.
  replace (2 * PI * - IZR j / INR N) with (- (2 * PI * IZR j / INR N))
    by (unfold Rdiv; ring).
  now rewrite cos_neg, sin_neg.
Qed.

(** Bins whose indices add up to a multiple of [N] are conjugate. *)
Lemma espectro_sin_ordenar_conj (s : list R) (dt : R) (k k' : nat) :
  (k < length s)%nat -> (k' < length s)%nat ->
  ((Z.of_nat k + Z.of_nat k') mod Z.of_nat (length s) = 0)%Z ->
  nth k (espectro_sin_ordenar s dt) C0 =
  Cconj (nth k' (espectro_sin_ordenar s dt) C0).
Proof.
  intros Hk Hk' Hsum. set (N := length s) in *.
  rewrite !espectro_sin_ordenar_nth, !fft_nth_omega by assumption.
  fold N.
  transitivity
    (Cscale dt
       (Cconj (Csum (map (fun n => Cscale (nth n s 0)
                                     (omega N (Z.of_nat k' * Z.of_nat n)))
                         (seq 0 N))))); [|C_ring].
  f_equal. rewrite Cconj_Csum. apply Csum_ext. intros n _.
  transitivity (Cscale (nth n s 0)
                  (Cconj (omega N (Z.of_nat k' * Z.of_nat n)))); [|C_ring].
  f_equal. rewrite omega_opp.
  apply Z.mod_divide in Hsum; [|lia]. destruct Hsum as [c Hc].
  replace (Z.of_nat k * Z.of_nat n)%Z
    with (- (Z.of_nat k' * Z.of_nat n) + (c * Z.of_nat n) * Z.of_nat N)%Z
    by (replace (Z.of_nat k) with (c * Z.of_nat N - Z.of_nat k')%Z by lia;
        ring).
  apply omega_period. lia.
Qed.

(** For a real signal the spectrum at frequency [-f] is the complex
    conjugate of the spectrum at [f]; in particular the magnitude spectrum
    is even. *)
Theorem espectro_hermitico (señal : list R) (dt : R) (p q : nat) :
  señal <> [] -> 0 < dt ->
  (p < length señal)%nat -> (q < length señal)%nat ->
  let F := fst (calcular_transformada_fourier señal dt) in
  let E := snd (calcular_transformada_fourier señal dt) in
  nth p F 0 = - nth q F 0 ->
  nth p E C0 = Cconj (nth q E C0) /\ Cmod (nth p E C0) = Cmod (nth q E C0).
Proof.
  intros Hs Hdt Hp Hq F E HF.
  pose proof (length_pos_of_nonempty _ Hs) as HN.
  destruct (transformada_nth señal dt p Hs Hp) as (Hkp & HFp & HEp).
  destruct (transformada_nth señal dt q Hs Hq) as (Hkq & HFq & HEq).
  set (kp := nth p (Np.argsort (Np.fftfreq (length señal) dt)) 0%nat) in *.
  set (kq := nth q (Np.argsort (Np.fftfreq (length señal) dt)) 0%nat) in *.
  unfold F in HF. rewrite HFp, HFq, !fftfreq_nth in HF by assumption.
  assert (Hb : bin_entero (length señal) kp =
               (- bin_entero (length señal) kq)%Z).
  { apply eq_IZR. rewrite opp_IZR.
    pose proof (val_pos _ _ HN Hdt) as Hv.
    apply Rmult_eq_reg_r with (1 / (INR (length señal) * dt)); lra. }
  assert (Hconj : nth p E C0 = Cconj (nth q E C0)).
  { unfold E. rewrite HEp, HEq.
    apply espectro_sin_ordenar_conj; try assumption.
    rewrite Zplus_mod, (bin_entero_mod _ kp), (bin_entero_mod _ kq), Hb.
    rewrite <- Zplus_mod, Z.add_opp_diag_l. apply Zmod_0_l. }
  split; [exact Hconj|]. rewrite Hconj. apply Cmod_conj.
Qed.

Lemma espectro_hermitico_witness :
  Cmod (nth 0 (snd (calcular_transformada_fourier [1; 2; 4] 1)) C0) =
  Cmod (nth 2 (snd (calcular_transformada_fourier [1; 2; 4] 1)) C0).
Proof.
  apply (espectro_hermitico [1; 2; 4] 1 0 2);
    [discriminate | lra | simpl; lia | simpl; lia |].
  rewrite (frecuencias_centradas [1; 2; 4] 1) by (discriminate || lra).
  simpl. lra.
Defined.

(** ** The component at frequency zero *)

(** Frequency 0 sits at position [N//2] of the output and nowhere else,
    and the spectrum there is the real number [dt * sum(signal)]. *)
Theorem componente_continua (señal : list R) (dt : R) :
  señal <> [] -> 0 < dt ->
  let N := length señal in
  let F := fst (calcular_transformada_fourier señal dt) in
  let E := snd (calcular_transformada_fourier señal dt) in
  nth (N / 2) F 0 = 0 /\
  nth (N / 2) E C0 = mkC (dt * Rsum señal) 0 /\
  (forall q, (q < N)%nat -> nth q F 0 = 0 -> q = (N / 2)%nat).
Proof.
  intros Hs Hdt N F E. pose proof (length_pos_of_nonempty _ Hs) as HN.
  fold N in HN.
  assert (Hhalf : (N / 2 < N)%nat) by (apply Nat.div_lt; lia).
  assert (HlenF : length F = N)
    by now apply transformada_frecuencias_length.
  assert (Hzero : nth (N / 2) F 0 = 0).
  { unfold F. rewrite frecuencias_centradas by assumption. fold N.
    rewrite (nth_map_lt _ _ 0%nat) by (rewrite length_seq; lia).
    rewrite seq_nth by lia. cbn [Nat.add]. unfold Rdiv. ring. }
  destruct (frecuencia_cero señal dt Hs Hdt) as [_ Hall].
  fold F E in Hall. rewrite HlenF in Hall.
  split; [exact Hzero|]. split; [now apply Hall|].
  intros q Hq Hq0.
  pose proof (frecuencias_estrictas señal dt Hs Hdt) as Hsorted. fold F in Hsorted.
  destruct (Nat.lt_trichotomy q (N / 2)) as [H|[H|H]]; [|assumption|].
  - pose proof (sorted_nth_lt F q (N / 2) Hsorted ltac:(lia)). lra.
  - pose proof (sorted_nth_lt F (N / 2) q Hsorted ltac:(lia)). lra.
Qed.

Lemma componente_continua_witness :
  nth (length [1; 2; 4] / 2)
      (snd (calcular_transformada_fourier [1; 2; 4] (1 / 2))) C0 =
  mkC (1 / 2 * Rsum [1; 2; 4]) 0.
Proof.
  apply (componente_continua [1; 2; 4] (1 / 2)); [discriminate | lra].
Defined.

(** ** Frequency scaling: when it raises, and the factor 1 *)

(** For a step [dt <> 0], the scaling verifier raises exactly when the
    grid is empty or the grid and the signal differ in length (the first
    interpolation fails); otherwise it runs to the end. *)
Theorem escalamiento_error (t señal : list R) (dt factor : R) :
  dt <> 0 ->
  (verificar_escalamiento_frecuencia t señal dt factor = None <->
   (t = [] \/ length t <> length señal)).
Proof.
  intros _.
  unfold verificar_escalamiento_frecuencia, Np.interp.
  rewrite vscale_length.
  destruct (Nat.eqb_spec (length t) 0) as [H0|H0].
  - split; [|reflexivity]. intros _. left. now apply length_zero_iff_nil.
  - destruct (Nat.eqb_spec (length t) (length señal)) as [Hl|Hl].
    + split.
      * intros H. exfalso.
        assert (Hs : señal <> []).
        { intros ->. simpl in Hl. lia. }
        pose proof (transformada_frecuencias_length señal dt Hs) as HF.
        pose proof (transformada_espectro_length señal dt Hs) as HE.
        destruct (calcular_transformada_fourier señal dt) as [F E].
        cbn [fst snd] in HF, HE.
        rewrite vscale_length, length_map, HF, HE, Nat.eqb_refl in H.
        replace (Nat.eqb (length señal) 0) with false in H
          by (symmetry; apply Nat.eqb_neq; lia).
        discriminate.
      * intros [->|H]; [simpl in H0; lia | contradiction].
    + split; [now right | reflexivity].
Qed.

Lemma escalamiento_error_witness :
  verificar_escalamiento_frecuencia [0; 1] [5] (1 / 2) 2 = None.
Proof.
  apply (escalamiento_error [0; 1] [5] (1 / 2) 2); [lra|].
  right. simpl. lia.
Defined.

Lemma interp1_en_nodo (xp fp : list R) (j : nat) :
  StronglySorted Rlt xp -> (j < length xp)%nat ->
  Np.interp1 xp fp 0 0 (nth j xp 0) = nth j fp 0.
Proof.
  intros Hs Hj.
  assert (Hne : xp <> []) by (intros ->; simpl in Hj; lia).
  assert (Hinj : forall i, (i < length xp)%nat ->
            nth j xp 0 = nth i xp 0 -> i = j).
  { intros i Hi Heq.
    destruct (Nat.lt_trichotomy i j) as [H|[H|H]]; [|assumption|].
    - pose proof (sorted_nth_lt xp i j Hs ltac:(lia)). lra.
    - pose proof (sorted_nth_lt xp j i Hs ltac:(lia)). lra. }
  destruct (interp1_creciente xp fp (nth j xp 0) Hne Hs)
    as [(i & Hi & Hx & Hy) | [(i & Hi & Hx & _) | [[H|H] _]]].
  - now rewrite Hy, (Hinj i Hi Hx).
  - exfalso. destruct Hx as [[H1 H2]|[H1 H2]].
    + destruct (Nat.le_gt_cases j i) as [Hle|Hgt].
      * destruct (Nat.eq_dec j i) as [->|Hne']; [lra|].
        pose proof (sorted_nth_lt xp j i Hs ltac:(lia)). lra.
      * destruct (Nat.eq_dec j (S i)) as [->|Hne']; [lra|].
        pose proof (sorted_nth_lt xp (S i) j Hs ltac:(lia)). lra.
    + pose proof (sorted_nth_lt xp i (S i) Hs ltac:(lia)). lra.
  - specialize (H j Hj). lra.
  - specialize (H j Hj). lra.
Qed.

Lemma interp_identidad (xp fp : list R) :
  StronglySorted Rlt xp -> length xp = length fp ->
  map (Np.interp1 (vscale 1 xp) fp 0 0) xp = fp.
Proof.
  intros Hs Hlen. apply (nth_ext _ _ 0 0); [now rewrite length_map|].
  intros i Hi. rewrite length_map in Hi.
  rewrite (nth_map_lt _ _ 0) by assumption.
  replace (nth i xp 0) with (nth i (vscale 1 xp) 0)
    by (rewrite vscale_nth by assumption; ring).
  apply interp1_en_nodo; [|now rewrite vscale_length].
  apply escala_positiva_creciente; [lra | assumption].
Qed.

Lemma error_de_magnitudes_iguales (x : list R) :
  x <> [] -> Np.amax (map Rabs (vsub x x)) = Some 0.
Proof.
  intros Hx. apply amax_zeros.
  - destruct x; [congruence | discriminate].
  - intros r Hr. apply in_map_iff in Hr. destruct Hr as (z & <- & Hz).
    unfold vsub in Hz. apply in_map_iff in Hz.
    destruct Hz as ([u v] & <- & Huv). cbn [fst snd].
    assert (u = v) as ->; [|rewrite Rminus_diag; apply Rabs_R0].
    clear Hx. induction x as [|w x IH]; simpl in Huv; [easy|].
    destruct Huv as [E|Huv]; [now inversion E | now apply IH].
Qed.

(** With [factor = 1] on a strictly ascending grid nothing is scaled: the
    resampled signal is the signal, the theoretical spectrum is the
    magnitude spectrum of the signal, and the printed error is 0. *)
Theorem escalamiento_factor_uno (t señal : list R) (dt : R) :
  señal <> [] -> length t = length señal -> StronglySorted Rlt t ->
  0 < dt ->
  exists r,
    verificar_escalamiento_frecuencia t señal dt 1 = Some r /\
    esc_señal_escalada r = señal /\
    esc_espectro_teorico r =
      map Cmod (snd (calcular_transformada_fourier señal dt)) /\
    esc_error r = Some 0.
Proof.
  intros Hs Hlen Ht Hdt.
  set (F := fst (calcular_transformada_fourier señal dt)).
  set (E := snd (calcular_transformada_fourier señal dt)).
  assert (HlenF : length F = length señal)
    by now apply transformada_frecuencias_length.
  assert (HlenE : length E = length señal)
    by now apply transformada_espectro_length.
  pose proof (length_pos_of_nonempty _ Hs) as HN.
  assert (H1 : Np.interp t (vscale 1 t) señal 0 0 = Some señal).
  { rewrite interp_some; [|intros Hnil|now rewrite vscale_length].
    - now rewrite interp_identidad.
    - apply (f_equal (@length R)) in Hnil.
      rewrite vscale_length in Hnil. simpl in Hnil. lia. }
  assert (H2 : Np.interp F (vscale 1 F) (map Cmod E) 0 0 =
               Some (map Cmod E)).
  { rewrite interp_some;
      [|intros Hnil|rewrite vscale_length, length_map; lia].
    - rewrite interp_identidad; [reflexivity | | rewrite length_map; lia].
      now apply frecuencias_estrictas.
    - apply (f_equal (@length R)) in Hnil.
      rewrite vscale_length in Hnil. simpl in Hnil. lia. }
  assert (Hteo : vscale (1 / Rabs 1) (map Cmod E) = map Cmod E).
  { unfold vscale. rewrite <- (map_id (map Cmod E)) at 2.
    apply map_ext. intros x. rewrite Rabs_R1. lra. }
  eexists. split; [apply verificar_escalamiento_frecuencia_eq; eassumption|].
  cbn [esc_señal_escalada esc_espectro_teorico esc_error].
  fold E. rewrite Hteo. repeat split.
  apply error_de_magnitudes_iguales.
  intros Hnil. apply (f_equal (@length R)) in Hnil.
  rewrite length_map, HlenE in Hnil. simpl in Hnil. lia.
Qed.

Lemma escalamiento_factor_uno_witness :
  exists r,
    verificar_escalamiento_frecuencia [0; 1; 2] [3; 1; 4] (1 / 2) 1 =
      Some r /\
    esc_señal_escalada r = [3; 1; 4] /\
    esc_espectro_teorico r =
      map Cmod (snd (calcular_transformada_fourier [3; 1; 4] (1 / 2))) /\
    esc_error r = Some 0.
Proof.
  apply (escalamiento_factor_uno [0; 1; 2] [3; 1; 4] (1 / 2));
    [discriminate | reflexivity | repeat constructor; lra | lra].
Defined.

Lemma escalamiento_positivo_witness :
  exists r ys,
    verificar_escalamiento_frecuencia [0; 1] [1; 1] 1 2 = Some r /\
    Forall2 (interpolacion_lineal
               (vscale 2 (fst (calcular_transformada_fourier [1; 1] 1)))
               (map Cmod (snd (calcular_transformada_fourier [1; 1] 1))))
            (fst (calcular_transformada_fourier [1; 1] 1)) ys /\
    esc_espectro_teorico r = vscale (1 / Rabs 2) ys /\
    esc_espectro_escalado r =
      snd (calcular_transformada_fourier (esc_señal_escalada r) 1) /\
    esc_error r =
      Np.amax (map Rabs (vsub (map Cmod (esc_espectro_escalado r))
                              (esc_espectro_teorico r))).
Proof.
  apply (escalamiento_positivo [0; 1] [1; 1] 1 2);
    [discriminate | reflexivity | lra | lra].
Defined.

(** ** The spectrum of a sinusoid with whole cycles in the window *)

Lemma suma_sin_telescopica (θ : R) (M : nat) :
  2 * sin (θ / 2) * Rsum (map (fun k => sin (INR k * θ)) (seq 0 M)) =
  cos (θ / 2) - cos ((INR M - 1 / 2) * θ).
Proof.
  induction M as [|M IH].
  - simpl. replace ((0 - 1 / 2) * θ) with (- (θ / 2)) by lra.
    rewrite cos_neg. lra.
  - rewrite seq_S, map_app, Rsum_app.
    change (Rsum (map (fun k => sin (INR k * θ)) [(0 + M)%nat]))
      with (sin (INR M * θ) + 0).
    rewrite Rmult_plus_distr_l, IH.
    replace ((INR (S M) - 1 / 2) * θ) with (INR M * θ + θ / 2)
      by (rewrite S_INR; lra).
    replace ((INR M - 1 / 2) * θ) with (INR M * θ - θ / 2) by lra.
    rewrite cos_plus, cos_minus. lra.
Qed.

Lemma sin_medio_positivo (N d : nat) :
  (0 < d < N)%nat -> 0 < sin (2 * PI * INR d / INR N / 2).
Proof.
  intros [Hd HdN].
  assert (HN : 0 < INR N) by (apply lt_0_INR; lia).
  assert (Hd0 : 0 < INR d) by (apply lt_0_INR; lia).
  assert (HdN' : INR d < INR N) by now apply lt_INR.
  pose proof PI_RGT_0 as Hpi.
  replace (2 * PI * INR d / INR N / 2) with (PI * (INR d / INR N))
    by (field; lra).
  assert (Hq : 0 < INR d / INR N < 1).
  { split; [now apply Rdiv_lt_0_compat|].
    apply Rmult_lt_reg_r with (INR N); [assumption|].
    unfold Rdiv. rewrite Rmult_assoc, Rinv_l by lra. lra. }
  apply sin_gt_0; nra.
Qed.

Lemma suma_sin_cero (N d : nat) :
  (0 < d < N)%nat ->
  Rsum (map (fun k => sin (INR k * (2 * PI * INR d / INR N))) (seq 0 N)) = 0.
Proof.
  intros Hd. set (θ := 2 * PI * INR d / INR N).
  assert (HN : 0 < INR N) by (apply lt_0_INR; lia).
  pose proof (sin_medio_positivo N d Hd) as Hsin. fold θ in Hsin.
  pose proof (suma_sin_telescopica θ N) as H.
  replace ((INR N - 1 / 2) * θ) with (- (θ / 2) + 2 * INR d * PI) in H
    by (unfold θ; field; lra).
  rewrite cos_period, cos_neg in H.
  apply Rmult_eq_reg_l with (2 * sin (θ / 2)); [|lra].
  rewrite H. lra.
Qed.

(** The powers of a root of unity add up to [N] or to nothing. *)
Lemma Csum_omega (N : nat) (j : Z) :
  (0 < N)%nat ->
  Csum (map (fun n => omega N (j * Z.of_nat n)) (seq 0 N)) =
  if Z.eqb (j mod Z.of_nat N) 0 then mkC (INR N) 0 else C0.
Proof.
  intros HN.
  assert (HNr : INR N <> 0) by (apply not_0_INR; lia).
  pose proof (Z.mod_pos_bound j (Z.of_nat N) ltac:(lia)) as Hb.
  set (d := Z.to_nat (j mod Z.of_nat N)).
  assert (Hd : Z.of_nat d = (j mod Z.of_nat N)%Z)
    by (unfold d; apply Z2Nat.id; lia).
  clearbody d.
  assert (Hterm : forall n,
    omega N (j * Z.of_nat n) =
    mkC (cos (INR n * (2 * PI * INR d / INR N)))
        (- sin (INR n * (2 * PI * INR d / INR N)))).
  { intros n.
    rewrite (omega_mod N (j * Z.of_nat n) (Z.of_nat d * Z.of_nat n))
      by (try lia; rewrite Hd, Z.mul_mod_idemp_l by lia; reflexivity).
    rewrite omega_partes, mult_IZR, <- !INR_IZR_INZ.
    replace (2 * PI * (INR d * INR n) / INR N)
      with (INR n * (2 * PI * INR d / INR N)) by (field; assumption).
    reflexivity. }
  rewrite (Csum_ext _ _ _ (fun n _ => Hterm n)).
  apply C_eq.
  - rewrite Re_Csum, map_map. cbn [Re].
    destruct (Z.eqb_spec (j mod Z.of_nat N) 0) as [Hz|Hz]; cbn [Re].
    + assert (d = 0%nat) as -> by lia.
      rewrite (Rsum_map_const 1); [rewrite length_seq; lra|].
      intros n _. simpl INR.
      replace (INR n * (2 * PI * 0 / INR N)) with 0
        by (unfold Rdiv; ring).
      apply cos_0.
    + apply suma_cos_cero. lia.
  - rewrite Im_Csum, map_map. cbn [Im].
    rewrite Rsum_opp.
    destruct (Z.eqb_spec (j mod Z.of_nat N) 0) as [Hz|Hz]; cbn [Im].
    + assert (d = 0%nat) as -> by lia.
      rewrite Rsum_map_zero; [lra|].
      intros n _. simpl INR.
      replace (INR n * (2 * PI * 0 / INR N)) with 0
        by (unfold Rdiv; ring).
      apply sin_0.
    + rewrite (suma_sin_cero N d) by lia. simpl. lra.
Qed.

Ltac C_field := apply C_eq; simpl; field.

Lemma Csum_sub {A} (f g : A -> C) (l : list A) :
  Csum (map (fun n => Csub (f n) (g n)) l) =
  Csub (Csum (map f l)) (Csum (map g l)).
Proof.
  induction l as [|x l IH]; simpl; [C_ring|]. rewrite IH. C_ring.
Qed.

Lemma Cmod_scale (r : R) (z : C) : Cmod (Cscale r z) = Rabs r * Cmod z.
Proof.
  unfold Cmod; simpl. rewrite <- sqrt_Rsqr_abs, <- sqrt_mult.
  - f_equal. unfold Rsqr. ring.
  - apply Rle_0_sqr.
  - nra.
Qed.

Lemma Cmod_C0 : Cmod C0 = 0.
Proof.
  unfold Cmod; simpl. replace (0 * 0 + 0 * 0) with 0 by ring. apply sqrt_0.
Qed.

Lemma Cmod_unitario (ψ : R) : Cmod (mkC (cos ψ) (sin ψ)) = 1.
Proof.
  unfold Cmod; simpl.
  replace (cos ψ * cos ψ + sin ψ * sin ψ)
    with (Rsqr (sin ψ) + Rsqr (cos ψ)) by (unfold Rsqr; ring).
  rewrite sin2_cos2. apply sqrt_1.
Qed.

(** One term of the transform of a sinusoid, split into its two
    rotating parts. *)
Lemma tono_termino (N m k n : nat) (A ψ : R) :
  Cscale (A * sin (ψ + 2 * PI * INR m * INR n / INR N))
         (omega N (Z.of_nat k * Z.of_nat n)) =
  Cscale (A / 2)
    (Cmul (mkC 0 (-1))
       (Csub (Cmul (mkC (cos ψ) (sin ψ))
                   (omega N ((Z.of_nat k - Z.of_nat m) * Z.of_nat n)))
             (Cmul (Cconj (mkC (cos ψ) (sin ψ)))
                   (omega N ((Z.of_nat k + Z.of_nat m) * Z.of_nat n))))).
Proof.
  replace ((Z.of_nat k - Z.of_nat m) * Z.of_nat n)%Z
    with (Z.of_nat k * Z.of_nat n + - (Z.of_nat m * Z.of_nat n))%Z by ring.
  replace ((Z.of_nat k + Z.of_nat m) * Z.of_nat n)%Z
    with (Z.of_nat k * Z.of_nat n + Z.of_nat m * Z.of_nat n)%Z by ring.
  rewrite !omega_add, <- omega_opp.
  rewrite (omega_partes N (Z.of_nat m * Z.of_nat n)).
  rewrite mult_IZR, <- !INR_IZR_INZ.
  replace (2 * PI * (INR m * INR n) / INR N)
    with (2 * PI * INR m * INR n / INR N) by (unfold Rdiv; ring).
  set (x := 2 * PI * INR m * INR n / INR N).
  rewrite sin_plus.
  destruct (omega N (Z.of_nat k * Z.of_nat n)) as [wr wi].
  unfold Cconj. C_field.
Qed.

(** Magnitude of each unsorted bin for a sinusoid with [m] whole cycles
    in the window. *)
Lemma tono_sin_ordenar (s : list R) (dt A ψ : R) (m k : nat) :
  let N := length s in
  (forall n, (n < N)%nat ->
     nth n s 0 = A * sin (ψ + 2 * PI * INR m * INR n / INR N)) ->
  (0 < m)%nat -> (2 * m < N)%nat -> (k < N)%nat ->
  Cmod (nth k (espectro_sin_ordenar s dt) C0) =
  if orb (Nat.eqb k m) (Nat.eqb k (N - m))
  then Rabs dt * (Rabs A * INR N / 2) else 0.
Proof.
  intros N Hs Hm HmN Hk.
  rewrite espectro_sin_ordenar_nth, fft_nth_omega by assumption. fold N.
  set (u := mkC (cos ψ) (sin ψ)).
  rewrite (Csum_ext _
     (fun n => Cscale (A / 2)
        (Cmul (mkC 0 (-1))
           (Csub (Cmul u (omega N ((Z.of_nat k - Z.of_nat m) * Z.of_nat n)))
                 (Cmul (Cconj u)
                    (omega N ((Z.of_nat k + Z.of_nat m) * Z.of_nat n)))))))
    by (intros n Hn; apply in_seq in Hn; rewrite Hs by lia;
        apply tono_termino).
  rewrite Csum_scale, Csum_Cmul, Csum_sub, !Csum_Cmul.
  rewrite !Csum_omega by lia.
  rewrite !Cmod_scale, Cmod_mul.
  replace (Cmod (mkC 0 (-1))) with 1
    by (unfold Cmod; simpl;
        replace (0 * 0 + -1 * -1) with 1 by ring; symmetry; apply sqrt_1).
  assert (HNr : 0 < INR N) by (apply lt_0_INR; lia).
  assert (Hhalf : Rabs (A / 2) = Rabs A / 2).
  { unfold Rdiv. rewrite Rabs_mult, (Rabs_pos_eq (/ 2)); lra. }
  assert (HN0 : Cmod (mkC (INR N) 0) = INR N) by (apply Cmod_real; lra).
  destruct (Nat.eqb_spec k m) as [Hkm|Hkm].
  - subst k. rewrite Z.sub_diag, Zmod_0_l. cbn [Z.eqb orb].
    replace (Z.eqb ((Z.of_nat m + Z.of_nat m) mod Z.of_nat N) 0) with false
      by (symmetry; apply Z.eqb_neq; rewrite Z.mod_small; lia).
    replace (Csub (Cmul u (mkC (INR N) 0)) (Cmul (Cconj u) C0))
      with (Cmul u (mkC (INR N) 0)) by (unfold C0; C_ring).
    rewrite Cmod_mul, HN0. unfold u. rewrite Cmod_unitario, Hhalf. lra.
  - replace (Z.eqb ((Z.of_nat k - Z.of_nat m) mod Z.of_nat N) 0) with false.
    2:{ symmetry. apply Z.eqb_neq. intros H.
        apply Z.mod_divide in H; [|lia]. destruct H as [c Hc].
        assert (c = 0%Z) by nia. lia. }
    destruct (Nat.eqb_spec k (N - m)) as [HkN|HkN]; cbn [orb].
    + replace (Z.eqb ((Z.of_nat k + Z.of_nat m) mod Z.of_nat N) 0) with true.
      2:{ symmetry. apply Z.eqb_eq.
          replace (Z.of_nat k + Z.of_nat m)%Z with (Z.of_nat N) by lia.
          apply Z_mod_same_full. }
      replace (Csub (Cmul u C0) (Cmul (Cconj u) (mkC (INR N) 0)))
        with (Cmul (Cscale (-1) (Cconj u)) (mkC (INR N) 0))
        by (unfold C0; C_ring).
      rewrite Cmod_mul, Cmod_scale, Cmod_conj, HN0. unfold u.
      rewrite Cmod_unitario, Hhalf.
      replace (Rabs (-1)) with 1 by (rewrite Rabs_left; lra). lra.
    + replace (Z.eqb ((Z.of_nat k + Z.of_nat m) mod Z.of_nat N) 0) with false.
      2:{ symmetry. apply Z.eqb_neq. intros H.
          apply Z.mod_divide in H; [|lia]. destruct H as [c Hc].
          assert (c = 1%Z) by nia. lia. }
      replace (Csub (Cmul u C0) (Cmul (Cconj u) C0)) with C0
        by (unfold C0; C_ring).
      rewrite Cmod_C0. ring.
Qed.

Lemma indice_centrado (N p : nat) :
  (p < N)%nat ->
  nth p (seq (N - N / 2) (N / 2) ++ seq 0 (N - N / 2)) 0%nat =
  if Nat.ltb p (N / 2) then (N - N / 2 + p)%nat else (p - N / 2)%nat.
Proof.
  intros Hp.
  pose proof (Nat.div_mod_eq N 2) as Hdm.
  pose proof (Nat.mod_upper_bound N 2 ltac:(lia)) as Hmod.
  destruct (Nat.ltb_spec p (N / 2)) as [H|H].
  - rewrite app_nth1 by (rewrite length_seq; lia). now rewrite seq_nth.
  - rewrite app_nth2 by (rewrite length_seq; lia).
    rewrite length_seq, seq_nth by lia. reflexivity.
Qed.

(** A sinusoid sampled on an evenly spaced grid of [N] points whose
    frequency fits [m] whole cycles in the window ([0 < 2m < N]) has a
    spectrum that vanishes everywhere except at the two positions of
    frequency [+frecuencia] and [-frecuencia], where its magnitude is
    [|amplitud| * N * dt / 2]. *)
Theorem espectro_de_un_tono (t_ini dt A φ : R) (N m : nat) :
  0 < dt -> (0 < m)%nat -> (2 * m < N)%nat ->
  let t := map (fun n => t_ini + INR n * dt) (seq 0 N) in
  let f := INR m / (INR N * dt) in
  let F := fst (calcular_transformada_fourier (generar_senoidal t f A φ) dt) in
  let E := snd (calcular_transformada_fourier (generar_senoidal t f A φ) dt) in
  nth (N / 2 + m) F 0 = f /\ nth (N / 2 - m) F 0 = - f /\
  forall p, (p < N)%nat ->
    Cmod (nth p E C0) =
    if orb (Nat.eqb p (N / 2 + m)) (Nat.eqb p (N / 2 - m))
    then Rabs A * INR N * dt / 2 else 0.
Proof.
  intros Hdt Hm HmN t f F E.
  set (s := generar_senoidal t f A φ) in *.
  pose proof (Nat.div_mod_eq N 2) as Hdm.
  pose proof (Nat.mod_upper_bound N 2 ltac:(lia)) as Hmod.
  assert (HNr : 0 < INR N) by (apply lt_0_INR; lia).
  assert (Hlen : length s = N).
  { unfold s, generar_senoidal, t. now rewrite !length_map, length_seq. }
  assert (Hs : s <> []).
  { intros Hnil. rewrite Hnil in Hlen. simpl in Hlen. lia. }
  assert (Hsn : forall n, (n < length s)%nat ->
            nth n s 0 =
            A * sin (2 * PI * f * t_ini + φ +
                     2 * PI * INR m * INR n / INR (length s))).
  { intros n Hn. rewrite Hlen in *. unfold s, generar_senoidal, t.
    rewrite map_map.
    rewrite (nth_map_lt _ _ 0%nat) by (rewrite length_seq; lia).
    rewrite seq_nth by lia. cbn [Nat.add]. do 2 f_equal.
    unfold f. field. split; lra. }
  assert (HF : F = map (fun p => (INR p - INR (N / 2)) / (INR N * dt))
                       (seq 0 N)).
  { unfold F. rewrite frecuencias_centradas by assumption.
    now rewrite Hlen. }
  split; [|split].
  - rewrite HF, (nth_map_lt _ _ 0%nat) by (rewrite length_seq; lia).
    rewrite seq_nth by lia. cbn [Nat.add]. rewrite plus_INR.
    unfold f, Rdiv. ring.
  - rewrite HF, (nth_map_lt _ _ 0%nat) by (rewrite length_seq; lia).
    rewrite seq_nth by lia. cbn [Nat.add]. rewrite minus_INR by lia.
    unfold f, Rdiv. ring.
  - intros p Hp.
    destruct (transformada_nth s dt p Hs ltac:(lia)) as (_ & _ & HE).
    unfold E. rewrite HE. rewrite Hlen.
    rewrite argsort_fftfreq by (assumption || lia).
    rewrite indice_centrado by assumption.
    rewrite (tono_sin_ordenar s dt A (2 * PI * f * t_ini + φ) m);
      try assumption; rewrite ?Hlen; try lia.
    + rewrite (Rabs_pos_eq dt) by lra.
      destruct (Nat.ltb_spec p (N / 2)) as [Hlt|Hge].
      * replace (Nat.eqb (N - N / 2 + p) m) with false
          by (symmetry; apply Nat.eqb_neq; lia).
        replace (Nat.eqb p (N / 2 + m)) with false
          by (symmetry; apply Nat.eqb_neq; lia).
        cbn [orb].
        destruct (Nat.eqb_spec (N - N / 2 + p) (N - m)) as [H1|H1];
          destruct (Nat.eqb_spec p (N / 2 - m)) as [H2|H2];
          try lia; lra.
      * replace (Nat.eqb (p - N / 2) (N - m)) with false
          by (symmetry; apply Nat.eqb_neq; lia).
        replace (Nat.eqb p (N / 2 - m)) with false
          by (symmetry; apply Nat.eqb_neq; lia).
        rewrite !Bool.orb_false_r.
        destruct (Nat.eqb_spec (p - N / 2) m) as [H1|H1];
          destruct (Nat.eqb_spec p (N / 2 + m)) as [H2|H2];
          try lia; lra.
    + destruct (Nat.ltb_spec p (N / 2)); lia.
Qed.

Lemma espectro_de_un_tono_witness :
  nth (4 / 2 + 1)
      (fst (calcular_transformada_fourier
              (generar_senoidal
                 (map (fun n => -2 + INR n * 1) (seq 0 4))
                 (INR 1 / (INR 4 * 1)) 3 0) 1)) 0 =
  INR 1 / (INR 4 * 1).
Proof.
  apply (espectro_de_un_tono (-2) 1 3 0 4 1); [lra | lia | lia].
Defined.

(** ** The slide navigator *)

Lemma navegar_en_rango (i : Z) (key : String.string) :
  (0 <= i < 5)%Z ->
  (0 <= fst (Navegador.navegar i key) < 5)%Z /\
  snd (Navegador.navegar i key) <> Navegador.Mostrar None.
Proof.
  intros Hi. unfold Navegador.navegar.
  change (Z.of_nat (length Navegador.diapositivas)) with 5%Z.
  assert (Hshow : forall j, (0 <= j < 5)%Z ->
            Navegador.mostrar_diapositiva j <> Navegador.Mostrar None).
  { intros j Hj. unfold Navegador.mostrar_diapositiva.
    assert (j = 0 \/ j = 1 \/ j = 2 \/ j = 3 \/ j = 4)%Z
      as [->|[->|[->|[->| ->]]]] by lia; discriminate. }
  destruct (String.eqb key Navegador.tecla_derecha).
  - cbn [fst snd]. pose proof (Z.mod_pos_bound (i + 1) 5 ltac:(lia)).
    split; [lia | now apply Hshow].
  - destruct (String.eqb key Navegador.tecla_izquierda).
    + cbn [fst snd]. pose proof (Z.mod_pos_bound (i - 1) 5 ltac:(lia)).
      split; [lia | now apply Hshow].
    + destruct (String.eqb key Navegador.tecla_salir); cbn [fst snd];
        (split; [lia | discriminate]).
Qed.

(** Whatever keys are pressed, the index stays within the five slides
    and every redraw finds its slide (no [IndexError]). *)
Theorem navegador_indice_valido (keys : list String.string) :
  (0 <= fst (Navegador.pulsar Navegador.indice_inicial keys) < 5)%Z /\
  Forall (fun a => a <> Navegador.Mostrar None)
         (snd (Navegador.pulsar Navegador.indice_inicial keys)).
Proof.
  assert (H : forall keys i, (0 <= i < 5)%Z ->
            (0 <= fst (Navegador.pulsar i keys) < 5)%Z /\
            Forall (fun a => a <> Navegador.Mostrar None)
                   (snd (Navegador.pulsar i keys))).
  { clear keys. induction keys as [|key keys IH]; intros i Hi.
    - simpl. split; [assumption | constructor].
    - cbn [Navegador.pulsar].
      destruct (navegar_en_rango i key Hi) as [Hr Ha].
      destruct (Navegador.navegar i key) as [i' a]. cbn [fst snd] in Hr, Ha.
      destruct (IH i' Hr) as [Hr' Ha'].
      destruct (Navegador.pulsar i' keys) as [final acciones].
      cbn [fst snd] in *. split; [assumption | now constructor]. }
  apply H. unfold Navegador.indice_inicial. lia.
Qed.

(** Right and left undo each other, five steps in one direction come
    back to the same slide, and any key other than the two arrows leaves
    the index alone. *)
Theorem navegador_ida_y_vuelta (i : Z) (key : String.string) :
  (0 <= i < 5)%Z ->
  fst (Navegador.navegar
         (fst (Navegador.navegar i Navegador.tecla_derecha))
         Navegador.tecla_izquierda) = i /\
  fst (Navegador.navegar
         (fst (Navegador.navegar i Navegador.tecla_izquierda))
         Navegador.tecla_derecha) = i /\
  fst (Navegador.pulsar i (repeat Navegador.tecla_derecha 5)) = i /\
  fst (Navegador.pulsar i (repeat Navegador.tecla_izquierda 5)) = i /\
  (key <> Navegador.tecla_derecha -> key <> Navegador.tecla_izquierda ->
   fst (Navegador.navegar i key) = i).
Proof.
  intros Hi.
  assert (i = 0 \/ i = 1 \/ i = 2 \/ i = 3 \/ i = 4)%Z
    as [->|[->|[->|[->| ->]]]] by lia;
    (repeat split; try reflexivity;
     intros Hr Hl; unfold Navegador.navegar;
     apply String.eqb_neq in Hr; apply String.eqb_neq in Hl;
     rewrite Hr, Hl;
     destruct (String.eqb key Navegador.tecla_salir); reflexivity).
Qed.

Lemma navegador_ida_y_vuelta_witness :
  fst (Navegador.navegar
         (fst (Navegador.navegar 0 Navegador.tecla_izquierda))
         Navegador.tecla_derecha) = 0%Z.
Proof.
  destruct (navegador_ida_y_vuelta 0 Navegador.tecla_salir) as (_ & H & _);
    [lia | exact H].
Defined.

(** ** The pulse and the transform together *)




(** ** The number of samples the time-shift verifier shifts by *)

Lemma valor_finito (s : bool) (m : positive) (e : nat) (x : PrimFloat.float) :
  FloatOps.Prim2SF x = SpecFloat.S754_finite s m (- Z.of_nat e) ->
  Doble.valor x = (if s then -1 else 1) * IZR (Z.pos m) / IZR (2 ^ Z.of_nat e).
Proof.
  intros H. unfold Doble.valor. rewrite H.
  rewrite powerRZ_neg' , <- pow_powerRZ, <- pow_IZR. reflexivity.
Qed.

Lemma muestras_29_pasos :
  Doble.muestras Doble.t0_29_pasos Doble.main_dt = Some 28%Z.
Proof. vm_compute. reflexivity. Qed.

Lemma cociente_29_pasos :
  Doble.valor (Doble.cociente Doble.t0_29_pasos Doble.main_dt) =
  8162774324609023 / 281474976710656.
Proof.
  rewrite (valor_finito false 8162774324609023 48)
    by (vm_compute; reflexivity).
  change (IZR (2 ^ Z.of_nat 48)) with (IZR 281474976710656).
  lra.
Qed.

(** C2. The verifier does not shift by [round(t0/dt)] samples.  In
    [main]'s setting, [dt = 0.01] and a shift of 29 steps
    ([desplazamiento = 29 * 0.01], the double [0.29]): the quotient the
    program computes is the double just below 29, whose nearest integer is
    29, and [int] truncates it to 28.  A signal of three samples is
    shifted by 28 positions, which differs from its circular shift by 29
    positions. *)
Theorem desplazamiento_no_redondea :
  let q := Doble.valor (Doble.cociente Doble.t0_29_pasos Doble.main_dt) in
  29 - 1 / 2 < q < 29 /\
  Doble.muestras Doble.t0_29_pasos Doble.main_dt = Some 28%Z /\
  Doble.señal_desplazada [1; 0; 0] Doble.t0_29_pasos Doble.main_dt =
    Some [0; 1; 0] /\
  rotacion [1; 0; 0] 28 = [0; 1; 0] /\
  rotacion [1; 0; 0] 29 = [0; 0; 1] /\
  Doble.señal_desplazada [1; 0; 0] Doble.t0_29_pasos Doble.main_dt <>
    Some (rotacion [1; 0; 0] 29).
Proof.
  cbv zeta. rewrite cociente_29_pasos.
  assert (Hd : Doble.señal_desplazada
                 [1; 0; 0] Doble.t0_29_pasos Doble.main_dt =
               Some [0; 1; 0]).
  { unfold Doble.señal_desplazada. rewrite muestras_29_pasos. reflexivity. }
  assert (Hr : rotacion [1; 0; 0] 29 = [0; 0; 1]) by reflexivity.
  split; [lra|]. split; [exact muestras_29_pasos|].
  split; [exact Hd|]. split; [reflexivity|]. split; [exact Hr|].
  rewrite Hd, Hr. intros H. injection H as H. lra.
Qed.

(** ** The time-shift verifier on a two-sample signal *)

Lemma omega_2_par (j : Z) : (j mod 2 = 0)%Z -> omega 2 j = mkC 1 0.
Proof.
  intros Hj. rewrite (omega_mod 2 j 0);
    [|lia|change (Z.of_nat 2) with 2%Z; now rewrite Hj].
  rewrite omega_partes.
  replace (2 * PI * 0 / INR 2) with 0 by (unfold Rdiv; ring).
  rewrite cos_0, sin_0. apply C_eq; simpl; ring.
Qed.

Lemma omega_2_impar (j : Z) : (j mod 2 = 1)%Z -> omega 2 j = mkC (-1) 0.
Proof.
  intros Hj. rewrite (omega_mod 2 j 1);
    [|lia|change (Z.of_nat 2) with 2%Z; now rewrite Hj].
  rewrite omega_partes.
  replace (2 * PI * 1 / INR 2) with PI by (simpl; field).
  rewrite cos_PI, sin_PI. apply C_eq; simpl; ring.
Qed.

Lemma espectro_sin_ordenar_dos (x y dt : R) :
  espectro_sin_ordenar [x; y] dt =
  [mkC (dt * (x + y)) 0; mkC (dt * (x - y)) 0].
Proof.
  apply (nth_ext _ _ C0 C0).
  - unfold espectro_sin_ordenar, Np.fft. now rewrite !length_map, length_seq.
  - unfold espectro_sin_ordenar at 1, Np.fft.
    rewrite !length_map, length_seq. intros k Hk.
    rewrite espectro_sin_ordenar_nth, fft_nth_omega by assumption.
    cbn [length seq map Csum fold_right nth].
    destruct k as [|[|k]]; [| |simpl in Hk; lia].
    + rewrite !omega_2_par by reflexivity.
      apply C_eq; simpl; ring.
    + rewrite omega_2_par, omega_2_impar by reflexivity.
      apply C_eq; simpl; ring.
Qed.

Lemma transformada_dos (x y dt : R) :
  0 < dt ->
  calcular_transformada_fourier [x; y] dt =
  ([nth 1 (Np.fftfreq 2 dt) 0; nth 0 (Np.fftfreq 2 dt) 0],
   [mkC (dt * (x - y)) 0; mkC (dt * (x + y)) 0]).
Proof.
  intros Hdt. unfold calcular_transformada_fourier.
  cbn [length]. rewrite argsort_fftfreq by (lia || assumption).
  rewrite espectro_sin_ordenar_dos. reflexivity.
Qed.

(** The error the verifier prints on the signal [[x; y]] when it shifts by
    [c] samples and the shift asked for is [m] steps. *)
Lemma desplazamiento_dos_error (t : list R) (x y dt : R) (c m : Z) :
  0 < dt -> (c mod 2 = 0)%Z -> (m mod 2 = 1)%Z ->
  des_error (verificar_desplazamiento_con c t [x; y] dt (IZR m * dt)) =
  Some (2 * dt * Rabs (x - y)).
Proof.
  intros Hdt Hc Hm. rewrite verificar_desplazamiento_con_eq. cbv zeta.
  cbn [des_error].
  assert (Hroll : Np.roll [x; y] c = [x; y]).
  { replace c with ((c / 2) * Z.of_nat (length [x; y]))%Z
      by (cbn [length]; lia_div).
    apply roll_multiplo. }
  rewrite Hroll, transformada_dos by assumption. cbn [fst snd map].
  rewrite !factor_teorico_bin by (lia || assumption).
  rewrite omega_2_impar by (rewrite Z.mul_1_l; assumption).
  rewrite omega_2_par by reflexivity.
  cbn [Cvmul Cvsub combine map fst snd Np.amax fold_left].
  replace (Csub (mkC (dt * (x - y)) 0)
                (Cmul (mkC (-1) 0) (mkC (dt * (x - y)) 0)))
    with (Cscale (2 * dt * (x - y)) (mkC 1 0))
    by (apply C_eq; simpl; ring).
  replace (Csub (mkC (dt * (x + y)) 0)
                (Cmul (mkC 1 0) (mkC (dt * (x + y)) 0)))
    with C0 by (apply C_eq; simpl; ring).
  rewrite Cmod_scale, Cmod_C0, (Cmod_real 1) by lra.
  rewrite !Rabs_mult, (Rabs_pos_eq 2), (Rabs_pos_eq dt) by lra.
  f_equal. rewrite Rmax_left; [ring|].
  pose proof (Rabs_pos (x - y)). nra.
Qed.

(** C6. For a shift of a whole number of steps the verifier's error is
    not always zero.  In [main]'s setting, [dt = 0.01] and a shift of 29
    steps: the program shifts by [int(0.29/0.01) = 28] samples.  On the
    signal [[1; 0]] the shift by 28 samples leaves the signal as it is,
    and the printed error is [0.02], the size of the spectrum itself;
    the circular shift by 29 samples, which is what the shift asks for,
    gives error 0. *)
Theorem desplazamiento_29_pasos (t : list R) :
  Doble.muestras Doble.t0_29_pasos Doble.main_dt = Some 28%Z /\
  des_señal_desplazada
    (verificar_desplazamiento_con 28 t [1; 0] main_dt (29 * main_dt)) =
    [1; 0] /\
  des_error
    (verificar_desplazamiento_con 28 t [1; 0] main_dt (29 * main_dt)) =
    Some (2 / 100) /\
  des_error
    (verificar_desplazamiento_con 29 t [1; 0] main_dt (29 * main_dt)) =
    Some 0.
Proof.
  assert (Hdt : 0 < main_dt) by (unfold main_dt; lra).
  split; [exact muestras_29_pasos|]. split; [|split].
  - rewrite verificar_desplazamiento_con_eq. reflexivity.
  - rewrite (desplazamiento_dos_error t 1 0 main_dt 28 29 Hdt)
      by reflexivity.
    f_equal. rewrite Rabs_pos_eq by lra. unfold main_dt. lra.
  - apply (desplazamiento_con_exacto t [1; 0] main_dt 29);
      [discriminate | assumption].
Qed.

(** ** The pulse of [main] and its component at frequency zero *)

(** On the grid that [np.arange(-5, 5, 0.01)] produces, sample 400 lies
    just below -1 and sample 600 just below 1: the pulse is 1 on the 200
    samples 401 .. 600. *)
Lemma main_pulso_eq :
  Doble.main_pulso =
  Some (repeat PrimFloat.zero 401 ++ repeat PrimFloat.one 200 ++
        repeat PrimFloat.zero 399).
Proof. vm_compute. reflexivity. Qed.

Lemma valor_cero : Doble.valor PrimFloat.zero = 0.
Proof. vm_compute. reflexivity. Qed.

Lemma valor_uno : Doble.valor PrimFloat.one = 1.
Proof.
  rewrite (valor_finito false 4503599627370496 52)
    by (vm_compute; reflexivity).
  change (IZR (2 ^ Z.of_nat 52)) with (IZR 4503599627370496).
  field.
Qed.

Lemma Rsum_repeat (x : R) (n : nat) : Rsum (repeat x n) = INR n * x.
Proof.
  induction n as [|n IH]; [simpl; ring|].
  cbn [repeat Rsum fold_right]. fold (Rsum (repeat x n)).
  rewrite IH, S_INR. ring.
Qed.

(** C3. The pulse that [main] generates (width 2, amplitude 1, centre 0
    on [np.arange(-5, 5, 0.01)], computed on doubles) has 1000 samples,
    200 of them equal to 1.  Its transform with [dt = 0.01] has a strictly
    ascending frequency axis with frequency 0 at position 500, and the
    magnitude of the spectrum there is 2, the width times the amplitude.
    The product the program forms for that bin on doubles, the sum of the
    samples times [dt], is the double 2.0 as well. *)
Theorem pulso_dc_magnitud :
  let pulso := repeat PrimFloat.zero 401 ++ repeat PrimFloat.one 200 ++
               repeat PrimFloat.zero 399 in
  let señal := map Doble.valor pulso in
  let F := fst (calcular_transformada_fourier señal main_dt) in
  let E := snd (calcular_transformada_fourier señal main_dt) in
  Doble.main_pulso = Some pulso /\
  length F = 1000%nat /\ length E = 1000%nat /\
  StronglySorted Rlt F /\
  nth 500 F 0 = 0 /\
  Cmod (nth 500 E C0) = 2 /\
  PrimFloat.mul (Doble.suma pulso) Doble.main_dt = Doble.dos.
Proof.
  intros pulso señal F E.
  assert (Hdt : 0 < main_dt) by (unfold main_dt; lra).
  assert (Hlen : length señal = 1000%nat).
  { unfold señal, pulso. rewrite length_map, !length_app, !repeat_length.
    reflexivity. }
  assert (Hs : señal <> []).
  { intros Hnil. rewrite Hnil in Hlen. discriminate. }
  assert (HlenF : length F = 1000%nat).
  { unfold F. now rewrite transformada_frecuencias_length. }
  assert (Hsum : Rsum señal = 200).
  { unfold señal, pulso. rewrite !map_app, !map_repeat.
    rewrite valor_cero, valor_uno, !Rsum_app, !Rsum_repeat.
    rewrite (INR_IZR_INZ 200).
    change (IZR (Z.of_nat 200)) with 200. ring. }
  assert (Hzero : nth 500 F 0 = 0).
  { unfold F. rewrite frecuencias_centradas by assumption. rewrite Hlen.
    rewrite (nth_map_lt _ _ 0%nat) by (rewrite length_seq; lia).
    rewrite seq_nth by lia.
    change (1000 / 2)%nat with 500%nat. cbn [Nat.add].
    unfold Rdiv. ring. }
  split; [exact main_pulso_eq|]. split; [exact HlenF|].
  split; [unfold E; now rewrite transformada_espectro_length|].
  split; [now apply frecuencias_estrictas|].
  split; [exact Hzero|]. split; [|vm_compute; reflexivity].
  destruct (frecuencia_cero señal main_dt Hs Hdt) as [_ Hall].
  fold F E in Hall. rewrite (Hall 500%nat) by (rewrite ?HlenF; lia || exact Hzero).
  rewrite Hsum. replace (main_dt * 200) with 2 by (unfold main_dt; lra).
  apply Cmod_real. lra.
Qed.

(** ** The pulse with a negative width *)

(** The order of doubles has no cycle [a <= x <= b < a]. *)
Lemma SFcompare_sin_ciclo (a x b : SpecFloat.spec_float) :
  SpecFloat.SFleb a x = true -> SpecFloat.SFleb x b = true ->
  SpecFloat.SFltb b a = true -> False.
Proof.
  unfold SpecFloat.SFleb, SpecFloat.SFltb.
  destruct a as [sa|sa| |sa ma ea], x as [sx|sx| |sx mx ex],
           b as [sb|sb| |sb mb eb];
    cbn [SpecFloat.SFcompare];
    repeat match goal with s : bool |- _ => destruct s end;
    try discriminate.
  all: repeat match goal with
       | |- context [Pos.compare_cont Eq ?p ?q] =>
           change (Pos.compare_cont Eq p q) with (Pos.compare p q)
       end.
  all: destruct (Z.compare_spec ea ex), (Z.compare_spec ex eb),
         (Z.compare_spec eb ea); try discriminate; try lia.
  all: destruct (Pos.compare_spec ma mx), (Pos.compare_spec mx mb),
         (Pos.compare_spec mb ma); cbn [CompOpp]; try discriminate; lia.
Qed.

Lemma doble_sin_ciclo (a x b : PrimFloat.float) :
  PrimFloat.leb a x = true -> PrimFloat.leb x b = true ->
  PrimFloat.ltb b a = true -> False.
Proof.
  rewrite !FloatAxioms.leb_spec, FloatAxioms.ltb_spec.
  apply SFcompare_sin_ciclo.
Qed.

(** C10 (as amended).  On every grid of doubles, for every amplitude,
    centre and width: when the upper bound the program computes,
    [centro + ancho/2], is below the lower bound it computes,
    [centro - ancho/2], the generator returns the all-zero signal. *)
Theorem pulso_intervalo_vacio
        (t : list PrimFloat.float) (ancho amplitud centro : PrimFloat.float) :
  PrimFloat.ltb (Doble.borde_superior ancho centro)
                (Doble.borde_inferior ancho centro) = true ->
  Doble.generar_pulso_rectangular t ancho amplitud centro =
  map (fun _ => PrimFloat.zero) t.
Proof.
  intros H.
  unfold Doble.generar_pulso_rectangular, Doble.mask_assign, Np.mask_and.
  induction t as [|τ t IH]; [reflexivity|].
  cbn [map combine fst snd]. rewrite IH. f_equal.
  destruct (PrimFloat.leb _ τ) eqn:H1; [|reflexivity].
  destruct (PrimFloat.leb τ _) eqn:H2; [|reflexivity].
  destruct (doble_sin_ciclo _ _ _ H1 H2 H).
Qed.

Lemma pulso_intervalo_vacio_witness :
  Doble.generar_pulso_rectangular
    [Doble.un_medio; Doble.dos; Doble.tres]
    (PrimFloat.opp Doble.dos) Doble.tres Doble.dos =
  map (fun _ => PrimFloat.zero) [Doble.un_medio; Doble.dos; Doble.tres].
Proof.
  apply (pulso_intervalo_vacio
           [Doble.un_medio; Doble.dos; Doble.tres]
           (PrimFloat.opp Doble.dos) Doble.tres Doble.dos).
  vm_compute. reflexivity.
Defined.

(** C10 fails as stated: a strictly negative width does not always give
    the all-zero signal.  With centre 1000 and width [-1e-13] both bounds
    round to the double 1000, and a grid point at 1000 receives the
    amplitude. *)
Lemma pulso_ancho_negativo_no_vacio :
  PrimFloat.ltb Doble.ancho_diminuto PrimFloat.zero = true /\
  Doble.borde_inferior Doble.ancho_diminuto Doble.mil = Doble.mil /\
  Doble.borde_superior Doble.ancho_diminuto Doble.mil = Doble.mil /\
  Doble.generar_pulso_rectangular
    [Doble.mil] Doble.ancho_diminuto PrimFloat.one Doble.mil =
    [PrimFloat.one] /\
  ~ (forall (t : list PrimFloat.float)
            (ancho amplitud centro : PrimFloat.float),
       PrimFloat.ltb ancho PrimFloat.zero = true ->
       Doble.generar_pulso_rectangular t ancho amplitud centro =
       map (fun _ => PrimFloat.zero) t).
Proof.
  split; [vm_compute; reflexivity|]. split; [vm_compute; reflexivity|].
  split; [vm_compute; reflexivity|]. split; [vm_compute; reflexivity|].
  intros H.
  specialize (H [Doble.mil] Doble.ancho_diminuto PrimFloat.one Doble.mil
                ltac:(vm_compute; reflexivity)).
  apply (f_equal (fun l => match l with
                           | x :: _ => PrimFloat.eqb x PrimFloat.zero
                           | [] => true
                           end)) in H.
  vm_compute in H. discriminate.
Qed.
